(** * House design assistant: a shallow embedding of [backend/main.py]

    The program maps a free-text brief and optional image descriptors to
    one of six style packages by keyword counting, and formats a few
    advisory notes.  Python values are embedded as follows:

    - [str] is a sequence of Unicode code points ([list N]);
    - [int] is [Z];
    - [float] is an IEEE-754 binary64 number ([spec_float] at precision 53
      and maximal exponent 1024);
    - a [dict] is an association list in insertion order (iteration order
      matters to [max]);
    - an operation that may raise returns a [result]. *)

From Stdlib Require Import List ZArith NArith Lia Bool String Ascii.
From Stdlib Require Import Floats.SpecFloat.
Import ListNotations.

Set Warnings "-register-all".

(* ================================================================= *)
(** ** Python built-ins used by the program *)

Module Py.

(** *** Strings *)

Definition char := N.
Definition str := list char.

(** An ASCII literal, as code points. *)
Definition lit (s : string) : str :=
  List.map N_of_ascii (list_ascii_of_string s).

Definition str_eq_dec : forall a b : str, {a = b} + {a <> b} :=
  list_eq_dec N.eq_dec.

(** [s.startswith(p)] *)
Fixpoint startswith (p s : str) : bool :=
  match p, s with
  | [], _ => true
  | _ :: _, [] => false
  | a :: p', b :: s' => N.eqb a b && startswith p' s'
  end.

(** [needle in hay] on strings: substring containment. *)
Fixpoint contains (needle hay : str) : bool :=
  startswith needle hay
  || match hay with
     | [] => false
     | _ :: hay' => contains needle hay'
     end.

(** [sep.join(xs)] *)
Fixpoint join (sep : str) (xs : list str) : str :=
  match xs with
  | [] => []
  | x :: rest =>
      match rest with
      | [] => x
      | _ :: _ => x ++ sep ++ join sep rest
      end
  end.

(** *** Exceptions *)

Inductive exn := KeyError | ValueError | TypeError.

Inductive result (A : Type) : Type :=
| Ok (a : A)
| Raise (e : exn).

Arguments Ok {A} a.
Arguments Raise {A} e.

Definition bind {A B} (c : result A) (k : A -> result B) : result B :=
  match c with
  | Ok a => k a
  | Raise e => Raise e
  end.

(** *** Dictionaries, in insertion order *)

Definition dict (V : Type) := list (str * V).

(** [d.get(k)] *)
Fixpoint dict_get {V} (d : dict V) (k : str) : option V :=
  match d with
  | [] => None
  | (k', v) :: d' => if str_eq_dec k' k then Some v else dict_get d' k
  end.

(** [d[k]] *)
Definition dict_getitem {V} (d : dict V) (k : str) : result V :=
  match dict_get d k with
  | Some v => Ok v
  | None => Raise KeyError
  end.

(** [d[k] = v]: an existing key keeps its position, a new key goes last. *)
Fixpoint dict_setitem {V} (d : dict V) (k : str) (v : V) : dict V :=
  match d with
  | [] => [(k, v)]
  | (k', v') :: d' =>
      if str_eq_dec k' k then (k', v) :: d'
      else (k', v') :: dict_setitem d' k v
  end.

(** Iterating a dict yields its keys. *)
Definition dict_keys {V} (d : dict V) : list str := List.map fst d.

(** *** [max(iterable, key=...)]

    The first item is taken as the running maximum; a later item replaces
    it only when its key is strictly greater.  Keys here are what
    [dict.get] returns, so a missing key is [None], and comparing with
    [None] raises. *)

Definition key_gt (a b : option Z) : result bool :=
  match a, b with
  | Some x, Some y => Ok (Z.ltb y x)
  | _, _ => Raise TypeError
  end.

Fixpoint max_loop (key : str -> option Z) (items : list str)
         (maxitem : str) (maxval : option Z) : result str :=
  match items with
  | [] => Ok maxitem
  | item :: rest =>
      let val := key item in
      bind (key_gt val maxval) (fun c =>
        if c then max_loop key rest item val
        else max_loop key rest maxitem maxval)
  end.

Definition max_by (items : list str) (key : str -> option Z) : result str :=
  match items with
  | [] => Raise ValueError
  | item :: rest => max_loop key rest item (key item)
  end.

(** *** Whitespace, [str.strip] and [str.split] *)

(** [c.isspace()]: the code points Python treats as whitespace. *)
Definition isspace (c : char) : bool :=
  ((9 <=? c) && (c <=? 13) || (28 <=? c) && (c <=? 32)
   || (c =? 133) || (c =? 160) || (c =? 5760)
   || (8192 <=? c) && (c <=? 8202)
   || (c =? 8232) || (c =? 8233) || (c =? 8239) || (c =? 8287)
   || (c =? 12288))%N.

Fixpoint lstrip (s : str) : str :=
  match s with
  | [] => []
  | c :: s' => if isspace c then lstrip s' else s
  end.

Definition rstrip (s : str) : str := rev (lstrip (rev s)).

(** [s.strip()] *)
Definition strip (s : str) : str := rstrip (lstrip s).

(** [s.split(sep)] for a one-character separator: every occurrence
    splits, so empty segments are kept and the result is never empty. *)
Fixpoint split_char (sep : char) (s : str) : list str :=
  match s with
  | [] => [[]]
  | c :: s' =>
      if N.eqb c sep then [] :: split_char sep s'
      else match split_char sep s' with
           | [] => [[c]]
           | w :: ws => (c :: w) :: ws
           end
  end.

(** *** Floats *)

Definition float := spec_float.

(** [x * y] on floats: binary64, round to nearest, ties to even. *)
Definition float_mul (x y : float) : float := SFmul 53 1024 x y.

(** The float nearest to an integer, as [float(n)] gives it. *)
Definition float_of_Z (n : Z) : float := binary_normalize 53 1024 n 0 false.

(** Decimal digits of a natural number, most significant first; [fuel]
    bounds the number of digits. *)
Fixpoint digits_from (fuel : nat) (n : N) (acc : str) : str :=
  match fuel with
  | O => acc
  | S fuel' =>
      let acc' := (48 + n mod 10)%N :: acc in
      if (n <? 10)%N then acc' else digits_from fuel' (n / 10) acc'
  end.

Definition digits (n : N) : str :=
  digits_from (S (N.to_nat (N.log2 n))) n [].

(** The integer nearest to [m * 2^e], ties to the even one. *)
Definition round_half_even (m : positive) (e : Z) : Z :=
  if (0 <=? e)%Z then (Zpos m * 2 ^ e)%Z
  else
    let d := (2 ^ (- e))%Z in
    let q := (Zpos m / d)%Z in
    let r := (Zpos m mod d)%Z in
    match (2 * r ?= d)%Z with
    | Lt => q
    | Gt => (q + 1)%Z
    | Eq => if Z.even q then q else (q + 1)%Z
    end.

(** [f"{x:.0f}"]: fixed-point notation with no fractional digits and no
    decimal point.  The sign is kept even when the digits are [0]. *)
Definition format_f0 (x : float) : str :=
  match x with
  | S754_nan => lit "nan"
  | S754_infinity s => (if s then lit "-" else []) ++ lit "inf"
  | S754_zero s => (if s then lit "-" else []) ++ lit "0"
  | S754_finite s m e =>
      (if s then lit "-" else []) ++ digits (Z.to_N (round_half_even m e))
  end.

End Py.

Import Py.

Declare Scope py_scope.
Delimit Scope py_scope with py.
Notation "x <- c ;; k" := (bind c (fun x => k))
  (at level 61, c at next level, right associativity) : py_scope.
Open Scope py_scope.
Open Scope Z_scope.

(* ================================================================= *)
(** ** The tables *)

Definition STYLE_KEYWORDS : dict (list str) :=
  [ (lit "modern",
     [lit "modern"; lit "minimal"; lit "clean lines"; lit "glass"; lit "sleek"]);
    (lit "farmhouse",
     [lit "farmhouse"; lit "rustic"; lit "barn"; lit "country"; lit "cozy"]);
    (lit "contemporary",
     [lit "contemporary"; lit "open concept"; lit "bright"; lit "bold"]);
    (lit "traditional",
     [lit "traditional"; lit "classic"; lit "timeless"; lit "formal"]);
    (lit "coastal",
     [lit "coastal"; lit "beach"; lit "light"; lit "airy"; lit "ocean"]);
    (lit "craftsman",
     [lit "craftsman"; lit "handmade"; lit "wood"; lit "detail";
      lit "broad porch"]) ].

Definition STYLE_PACKAGES : dict (dict (list str)) :=
  [
    (lit "modern",
     [
      (lit "exterior",
       [ lit "Standing seam metal roof in charcoal";
         lit "Smooth stucco with dark fiber-cement accent panels";
         lit "Black anodized aluminum windows" ]);
      (lit "interior",
       [ lit "Matte engineered oak flooring";
         lit "Flat-panel cabinetry in warm walnut and soft white";
         lit "Large-format porcelain tile in wet areas" ]);
      (lit "features",
       [ lit "Double-height living room glazing";
         lit "Hidden pantry wall";
         lit "Integrated linear fireplace" ]) ]);
    (lit "farmhouse",
     [
      (lit "exterior",
       [ lit "Board-and-batten siding in off-white";
         lit "Gable roof with black architectural shingles";
         lit "Natural stone skirt at base and porch columns" ]);
      (lit "interior",
       [ lit "Wide-plank white oak floors";
         lit "Shaker cabinetry with brass hardware";
         lit "Apron-front kitchen sink with bridge faucet" ]);
      (lit "features",
       [ lit "Wrap-around front porch";
         lit "Mudroom with built-in cubbies";
         lit "Exposed reclaimed wood ceiling beams" ]) ]);
    (lit "contemporary",
     [
      (lit "exterior",
       [ lit "Mixed cladding: fiber-cement, wood-look panels, and stone";
         lit "Asymmetrical massing with strong horizontal lines";
         lit "Dark bronze window frames" ]);
      (lit "interior",
       [ lit "Neutral polished concrete or microcement floors";
         lit "High-gloss lacquer and veneer cabinet mix";
         lit "Statement staircase with glass balustrade" ]);
      (lit "features",
       [ lit "Skylight strip over circulation spine";
         lit "Flexible home office / guest suite";
         lit "Smart lighting scenes and occupancy controls" ]) ]);
    (lit "traditional",
     [
      (lit "exterior",
       [ lit "Painted brick with stone lintel detailing";
         lit "Symmetrical fa" ++ [231%N] ++ lit "ade and multi-light windows";
         lit "Slate-look roof and classic cornice profile" ]);
      (lit "interior",
       [ lit "Herringbone wood flooring in main hall";
         lit "Raised-panel cabinetry";
         lit "Crown molding and paneled feature walls" ]);
      (lit "features",
       [ lit "Formal dining room with butler pantry";
         lit "Library / study with built-ins";
         lit "Generous foyer with central stair" ]) ]);
    (lit "coastal",
     [
      (lit "exterior",
       [ lit "Light horizontal lap siding in sand tone";
         lit "White trim and composite shutters";
         lit "Metal roof accents over porches" ]);
      (lit "interior",
       [ lit "Bleached oak flooring";
         lit "Soft blue-gray cabinetry accents";
         lit "Textured handmade-look ceramic backsplash" ]);
      (lit "features",
       [ lit "Indoor-outdoor sliding wall";
         lit "Covered lanai with summer kitchen";
         lit "Window benches for view-focused seating" ]) ]);
    (lit "craftsman",
     [
      (lit "exterior",
       [ lit "Tapered porch columns on stone piers";
         lit "Earth-tone shingle + lap siding combination";
         lit "Deep overhangs with exposed rafter tails" ]);
      (lit "interior",
       [ lit "Quarter-sawn oak floors and trim";
         lit "Built-in benches and bookcases";
         lit "Artisan tile around fireplace and kitchen" ]);
      (lit "features",
       [ lit "Defined entry with covered porch";
         lit "Window seat nooks";
         lit "Handcrafted millwork and door casings" ]) ]) ].

(* ================================================================= *)
(** ** The records *)

Record PlotDetails := {
  width_m : float;
  depth_m : float;
  slope : str;
  climate : str;
  orientation : str
}.

Record UserInputs := {
  brief : str;
  image_descriptions : list str;
  required_rooms : list str;
  plot : PlotDetails
}.

Record DesignProposal := {
  selected_style : str;
  style_confidence : str;
  exterior_finishes : list str;
  interior_finishes : list str;
  suggested_features : list str;
  site_strategy_notes : list str;
  room_planning : list str
}.

(* ================================================================= *)
(** ** HouseDesignAssistant *)

Section Assistant.

(** [str.lower] follows the Unicode case tables; the development is
    parametric in it. *)
Variable lower : str -> str.

(** [scores[style] += 1] *)
Definition bump (scores : dict Z) (style : str) : result (dict Z) :=
  v <- dict_getitem scores style ;;
  Ok (dict_setitem scores style (v + 1)).

(** The inner loop: [for keyword in keywords: if keyword in combined: ...] *)
Fixpoint for_keywords (combined style : str) (keywords : list str)
         (scores : dict Z) : result (dict Z) :=
  match keywords with
  | [] => Ok scores
  | keyword :: rest =>
      scores' <- (if contains keyword combined then bump scores style
                  else Ok scores) ;;
      for_keywords combined style rest scores'
  end.

(** The outer loop: [for style, keywords in STYLE_KEYWORDS.items(): ...] *)
Fixpoint for_styles (combined : str) (items : dict (list str))
         (scores : dict Z) : result (dict Z) :=
  match items with
  | [] => Ok scores
  | (style, keywords) :: rest =>
      scores' <- for_keywords combined style keywords scores ;;
      for_styles combined rest scores'
  end.

(** [{style: 0 for style in STYLE_KEYWORDS}] *)
Definition zero_scores (table : dict (list str)) : dict Z :=
  fold_left (fun d style => dict_setitem d style 0) (dict_keys table) [].

(** [f"{brief} {' '.join(image_descriptions)}".lower()] *)
Definition combined_text (brief : str) (image_descriptions : list str) : str :=
  lower (brief ++ lit " " ++ join (lit " ") image_descriptions).

(** The scores dict as it stands after the two loops. *)
Definition style_scores (brief : str) (image_descriptions : list str)
  : result (dict Z) :=
  for_styles (combined_text brief image_descriptions) STYLE_KEYWORDS
             (zero_scores STYLE_KEYWORDS).

Definition infer_style (brief : str) (image_descriptions : list str)
  : result str :=
  scores <- style_scores brief image_descriptions ;;
  best_style <- max_by (dict_keys scores) (dict_get scores) ;;
  v <- dict_getitem scores best_style ;;
  if v =? 0 then Ok (lit "contemporary") else Ok best_style.

(** The superscript two of [m²], U+00B2. *)
Definition SUPERSCRIPT_TWO : char := 178%N.

Definition site_strategy (plot : PlotDetails) : list str :=
  let area := float_mul (width_m plot) (depth_m plot) in
  [ lit "Plot area is approximately " ++ format_f0 area ++ lit " m"
      ++ [SUPERSCRIPT_TWO]
      ++ lit "; reserve 35-45% for landscaped open space.";
    lit "Align main living spaces for " ++ orientation plot
      ++ lit " with controlled glazing for daylight comfort.";
    lit "Use a " ++ slope plot
      ++ lit " slope strategy: stepped slab and drainage channels if not flat.";
    lit "Specify envelope and shading details suitable for " ++ climate plot
      ++ lit " climate." ].

Definition room_planning_notes (required_rooms : list str) : list str :=
  let joined := join (lit ", ") required_rooms in
  [ lit "Prioritize adjacency planning for: " ++ joined ++ lit ".";
    lit "Keep kitchen, dining, and family spaces connected; isolate acoustic-sensitive spaces.";
    lit "Plan storage early: pantry, linen, utility, and integrated wardrobes." ].

Definition propose (inputs : UserInputs) : result DesignProposal :=
  style <- infer_style (brief inputs) (image_descriptions inputs) ;;
  package <- dict_getitem STYLE_PACKAGES style ;;
  let confidence :=
    if 0 <? Z.of_nat (List.length (image_descriptions inputs))
    then lit "high" else lit "medium" in
  exterior <- dict_getitem package (lit "exterior") ;;
  interior <- dict_getitem package (lit "interior") ;;
  features <- dict_getitem package (lit "features") ;;
  Ok {| selected_style := style;
        style_confidence := confidence;
        exterior_finishes := exterior;
        interior_finishes := interior;
        suggested_features := features;
        site_strategy_notes := site_strategy (plot inputs);
        room_planning := room_planning_notes (required_rooms inputs) |}.

End Assistant.

(* ================================================================= *)
(** ** The command line *)

(** The namespace [parse_args] returns. *)
Record Args := {
  arg_brief : str;
  arg_images : str;
  arg_rooms : str;
  arg_plot_width : float;
  arg_plot_depth : float;
  arg_slope : str;
  arg_climate : str;
  arg_orientation : str;
  arg_json : bool
}.

Definition COMMA : char := 44%N.

(** [[s.strip() for s in text.split(",") if s.strip()]] *)
Definition comma_list (text : str) : list str :=
  flat_map (fun s => match strip s with
                     | [] => []
                     | _ :: _ => [strip s]
                     end)
           (split_char COMMA text).

(** The [UserInputs] that [main] builds from the arguments. *)
Definition inputs_of_args (args : Args) : UserInputs :=
  {| brief := arg_brief args;
     image_descriptions := comma_list (arg_images args);
     required_rooms := comma_list (arg_rooms args);
     plot := {| width_m := arg_plot_width args;
                depth_m := arg_plot_depth args;
                slope := arg_slope args;
                climate := arg_climate args;
                orientation := arg_orientation args |} |}.

(* ================================================================= *)
(** ** The [json] module, as far as the program's output goes

    [asdict(proposal)] is a dict of strings and lists of strings, so the
    model covers documents built from strings, arrays and objects:
    [dumps] with [indent] and the default [ensure_ascii=True], and [loads]
    restricted to such documents (numbers and the literals [true], [false]
    and [null] are reported as [Unsupported]). *)

Module Json.

Inductive value :=
| JStr (s : str)
| JList (xs : list value)
| JDict (items : list (str * value)).

Inductive error := Malformed | Unsupported | TooDeep.

Definition parsed (A : Type) := (A + error)%type.

Definition ret {A} (a : A) : parsed A := inl a.
Definition fail {A} (e : error) : parsed A := inr e.

Definition pbind {A B} (c : parsed A) (k : A -> parsed B) : parsed B :=
  match c with
  | inl a => k a
  | inr e => inr e
  end.

Definition QUOTE : char := 34%N.
Definition BACKSLASH : char := 92%N.
Definition NEWLINE : char := 10%N.
Definition SPACE : char := 32%N.

(** *** Encoding *)

Definition hex_digit (d : N) : char :=
  (if d <? 10 then 48 + d else 87 + d)%N.

(** ['{0:04x}'.format(n)] for [n < 0x10000] *)
Definition hex4 (n : N) : str :=
  [ hex_digit (N.shiftr n 12 mod 16)%N; hex_digit (N.shiftr n 8 mod 16)%N;
    hex_digit (N.shiftr n 4 mod 16)%N; hex_digit (n mod 16)%N ].

Definition u_escape (n : N) : str := BACKSLASH :: 117%N :: hex4 n.

(** One character of [encode_basestring_ascii]: the quote, the backslash
    and everything outside [' '..'~'] are escaped; a code point beyond the
    BMP becomes a surrogate pair. *)
Definition escape_char (c : char) : str :=
  (if c =? QUOTE then [BACKSLASH; QUOTE]
   else if c =? BACKSLASH then [BACKSLASH; BACKSLASH]
   else if c =? 8 then [BACKSLASH; 98]
   else if c =? 12 then [BACKSLASH; 102]
   else if c =? 10 then [BACKSLASH; 110]
   else if c =? 13 then [BACKSLASH; 114]
   else if c =? 9 then [BACKSLASH; 116]
   else if (32 <=? c) && (c <=? 126) then [c]
   else if c <? 65536 then u_escape c
   else
     let n := c - 65536 in
     let s1 := N.lor 55296 (N.land (N.shiftr n 10) 1023) in
     let s2 := N.lor 56320 (N.land n 1023) in
     u_escape s1 ++ u_escape s2)%N.

Definition encode_string (s : str) : str :=
  QUOTE :: flat_map escape_char s ++ [QUOTE].

Section Encoder.

Variable indent : nat.

(** ['\n' + ' ' * (indent * level)] *)
Definition newline_indent (level : nat) : str :=
  NEWLINE :: repeat SPACE (indent * level).

(** Items of a container one per line, separated by [','], the closing
    bracket back at the outer level. *)
Definition block (open close : str) (level : nat) (items : list str) : str :=
  match items with
  | [] => open ++ close
  | _ :: _ =>
      open ++ newline_indent (S level)
        ++ join (lit "," ++ newline_indent (S level)) items
        ++ newline_indent level ++ close
  end.

Fixpoint encode (level : nat) (v : value) : str :=
  match v with
  | JStr s => encode_string s
  | JList xs =>
      block (lit "[") (lit "]") level (List.map (encode (S level)) xs)
  | JDict items =>
      block (lit "{") (lit "}") level
            (List.map (fun kv => encode_string (fst kv) ++ lit ": "
                                   ++ encode (S level) (snd kv)) items)
  end.

End Encoder.

(** [json.dumps(v, indent=indent)] *)
Definition dumps (indent : nat) (v : value) : str := encode indent 0 v.

(** *** Decoding *)

Definition unhex (c : char) : option N :=
  (if (48 <=? c) && (c <=? 57) then Some (c - 48)
   else if (97 <=? c) && (c <=? 102) then Some (c - 87)
   else if (65 <=? c) && (c <=? 70) then Some (c - 55)
   else None)%N.

(** Four hexadecimal digits, and what follows them. *)
Definition decode_uXXXX (s : str) : parsed (N * str) :=
  match s with
  | a :: b :: c :: d :: rest =>
      match unhex a, unhex b, unhex c, unhex d with
      | Some x3, Some x2, Some x1, Some x0 =>
          ret (((x3 * 16 + x2) * 16 + x1) * 16 + x0, rest)%N
      | _, _, _, _ => fail Malformed
      end
  | _ => fail Malformed
  end.

(** The one-letter escapes. *)
Definition unescape (esc : char) : option char :=
  (if esc =? QUOTE then Some QUOTE
   else if esc =? BACKSLASH then Some BACKSLASH
   else if esc =? 47 then Some 47
   else if esc =? 98 then Some 8
   else if esc =? 102 then Some 12
   else if esc =? 110 then Some 10
   else if esc =? 114 then Some 13
   else if esc =? 116 then Some 9
   else None)%N.

Definition is_high_surrogate (u : N) : bool := ((55296 <=? u) && (u <=? 56319))%N.
Definition is_low_surrogate (u : N) : bool := ((56320 <=? u) && (u <=? 57343))%N.

(** [scanstring], entered after the opening quote: reads up to the closing
    quote.  A [\uXXXX] high surrogate directly followed by a [\uXXXX] low
    surrogate is one code point; control characters must be escaped. *)
Fixpoint scanstring (fuel : nat) (s : str) : parsed (str * str) :=
  match fuel with
  | O => fail TooDeep
  | S n =>
      match s with
      | [] => fail Malformed
      | c :: s1 =>
          if N.eqb c QUOTE then ret ([], s1)
          else if N.eqb c BACKSLASH then
            match s1 with
            | [] => fail Malformed
            | esc :: s2 =>
                if N.eqb esc 117 then
                  pbind (decode_uXXXX s2) (fun r =>
                    let (uni, s3) := r in
                    let single :=
                      pbind (scanstring n s3) (fun t => ret (uni :: fst t, snd t)) in
                    if is_high_surrogate uni then
                      match s3 with
                      | b :: u :: s4 =>
                          if N.eqb b BACKSLASH && N.eqb u 117 then
                            pbind (decode_uXXXX s4) (fun r2 =>
                              let (uni2, s5) := r2 in
                              if is_low_surrogate uni2 then
                                let cp := (65536 + N.lor (N.shiftl (uni - 55296) 10)
                                                         (uni2 - 56320))%N in
                                pbind (scanstring n s5)
                                      (fun t => ret (cp :: fst t, snd t))
                              else single)
                          else single
                      | _ => single
                      end
                    else single)
                else
                  match unescape esc with
                  | Some ch =>
                      pbind (scanstring n s2) (fun t => ret (ch :: fst t, snd t))
                  | None => fail Malformed
                  end
            end
          else if N.ltb c 32 then fail Malformed
          else pbind (scanstring n s1) (fun t => ret (c :: fst t, snd t))
      end
  end.

(** JSON whitespace: space, tab, line feed, carriage return. *)
Definition is_ws (c : char) : bool :=
  (N.eqb c 32 || N.eqb c 9 || N.eqb c 10 || N.eqb c 13)%bool.

Fixpoint skip_ws (s : str) : str :=
  match s with
  | [] => []
  | c :: s' => if is_ws c then skip_ws s' else s
  end.

(** [dict(pairs)]: a repeated key keeps its first position and takes the
    last value. *)
Definition dict_of_pairs (pairs : list (str * value)) : list (str * value) :=
  fold_left (fun d kv => dict_setitem d (fst kv) (snd kv)) pairs [].

(** [scan_once] with the array and object loops.  [fuel] bounds the
    recursion; [loads] supplies enough for any input. *)
Fixpoint scan_once (fuel : nat) (s : str) {struct fuel} : parsed (value * str) :=
  match fuel with
  | O => fail TooDeep
  | S n =>
      match s with
      | [] => fail Malformed
      | c :: s1 =>
          if N.eqb c QUOTE then
            pbind (scanstring (List.length s1) s1) (fun r => ret (JStr (fst r), snd r))
          else if N.eqb c 91 then
            match skip_ws s1 with
            | [] => fail Malformed
            | c1 :: s2 =>
                if N.eqb c1 93 then ret (JList [], s2)
                else array_loop n (skip_ws s1) []
            end
          else if N.eqb c 123 then
            match skip_ws s1 with
            | [] => fail Malformed
            | c1 :: s2 =>
                if N.eqb c1 125 then ret (JDict [], s2)
                else if N.eqb c1 QUOTE then object_loop n s2 []
                else fail Malformed
            end
          else if N.eqb c 45 || (N.leb 48 c && N.leb c 57)
                  || N.eqb c 110 || N.eqb c 116 || N.eqb c 102
                  || N.eqb c 78 || N.eqb c 73
          then fail Unsupported
          else fail Malformed
      end
  end

(** Entered at the first character of an element. *)
with array_loop (fuel : nat) (s : str) (acc : list value) {struct fuel}
  : parsed (value * str) :=
  match fuel with
  | O => fail TooDeep
  | S n =>
      pbind (scan_once n s) (fun r =>
        let (v, s1) := r in
        match skip_ws s1 with
        | [] => fail Malformed
        | c :: s2 =>
            if N.eqb c 93 then ret (JList (rev (v :: acc)), s2)
            else if N.eqb c 44 then array_loop n (skip_ws s2) (v :: acc)
            else fail Malformed
        end)
  end

(** Entered after the opening quote of a key. *)
with object_loop (fuel : nat) (s : str) (acc : list (str * value)) {struct fuel}
  : parsed (value * str) :=
  match fuel with
  | O => fail TooDeep
  | S n =>
      pbind (scanstring (List.length s) s) (fun r =>
        let (key, s1) := r in
        match skip_ws s1 with
        | [] => fail Malformed
        | c :: s2 =>
            if N.eqb c 58 then
              pbind (scan_once n (skip_ws s2)) (fun r2 =>
                let (v, s3) := r2 in
                match skip_ws s3 with
                | [] => fail Malformed
                | c3 :: s4 =>
                    if N.eqb c3 125 then
                      ret (JDict (dict_of_pairs (rev ((key, v) :: acc))), s4)
                    else if N.eqb c3 44 then
                      match skip_ws s4 with
                      | [] => fail Malformed
                      | c5 :: s6 =>
                          if N.eqb c5 QUOTE then object_loop n s6 ((key, v) :: acc)
                          else fail Malformed
                      end
                    else fail Malformed
                end)
            else fail Malformed
        end)
  end.

(** [json.loads(s)]: one value, whitespace allowed around it, nothing
    else after it. *)
Definition loads (s : str) : parsed value :=
  pbind (scan_once (2 * List.length s + 1) (skip_ws s)) (fun r =>
    match skip_ws (snd r) with
    | [] => ret (fst r)
    | _ :: _ => fail Malformed
    end).

End Json.

(* ================================================================= *)
(** ** Structured output *)

(** [asdict(proposal)]: the fields in declaration order. *)
Definition asdict (p : DesignProposal) : Json.value :=
  Json.JDict
    [ (lit "selected_style", Json.JStr (selected_style p));
      (lit "style_confidence", Json.JStr (style_confidence p));
      (lit "exterior_finishes", Json.JList (List.map Json.JStr (exterior_finishes p)));
      (lit "interior_finishes", Json.JList (List.map Json.JStr (interior_finishes p)));
      (lit "suggested_features", Json.JList (List.map Json.JStr (suggested_features p)));
      (lit "site_strategy", Json.JList (List.map Json.JStr (site_strategy_notes p)));
      (lit "room_planning_notes", Json.JList (List.map Json.JStr (room_planning p))) ].

Section Main.

Variable lower : str -> str.

(** The text report relies on [textwrap.fill] and [str.title]; it stays
    abstract here. *)
Variable pretty_print : DesignProposal -> str.

(** What [main] writes to standard output. *)
Definition main (args : Args) : result str :=
  let inputs := inputs_of_args args in
  proposal <- propose lower inputs ;;
  if arg_json args
  then Ok (Json.dumps 2 (asdict proposal) ++ [Json.NEWLINE])
  else Ok (pretty_print proposal).

End Main.

(** *** Reading the structured output back *)

Definition as_str (v : Json.value) : option str :=
  match v with
  | Json.JStr s => Some s
  | _ => None
  end.

Fixpoint all_some {A} (xs : list (option A)) : option (list A) :=
  match xs with
  | [] => Some []
  | Some a :: rest => option_map (cons a) (all_some rest)
  | None :: _ => None
  end.

Definition as_str_list (v : Json.value) : option (list str) :=
  match v with
  | Json.JList xs => all_some (List.map as_str xs)
  | _ => None
  end.

Definition field {A} (conv : Json.value -> option A)
           (d : dict Json.value) (name : string) : option A :=
  match dict_get d (lit name) with
  | Some v => conv v
  | None => None
  end.

(** The record rebuilt from a deserialized document, field by field. *)
Definition proposal_of_json (v : Json.value) : option DesignProposal :=
  match v with
  | Json.JDict d =>
      match field as_str d "selected_style", field as_str d "style_confidence",
            field as_str_list d "exterior_finishes",
            field as_str_list d "interior_finishes",
            field as_str_list d "suggested_features",
            field as_str_list d "site_strategy",
            field as_str_list d "room_planning_notes" with
      | Some a, Some b, Some c, Some i, Some e, Some f, Some g =>
          Some {| selected_style := a; style_confidence := b;
                  exterior_finishes := c; interior_finishes := i;
                  suggested_features := e; site_strategy_notes := f;
                  room_planning := g |}
      | _, _, _, _, _, _, _ => None
      end
  | _ => None
  end.

(** ASCII lowercasing: what [str.lower] does on ASCII text. *)
Definition ascii_lower (s : str) : str :=
  List.map (fun c => if (65 <=? c)%N && (c <=? 90)%N then (c + 32)%N else c) s.

(* ================================================================= *)
(** ** Specification-side notions *)

(** [k] occurs in [t] as a substring: anywhere, with no condition on what
    surrounds it. *)
Definition occurs_in (k t : str) : Prop :=
  exists pre post, t = pre ++ k ++ post.

(** The number of keywords of a list that hit the text, each keyword
    counted once. *)
Definition keyword_hits (text : str) (keywords : list str) : Z :=
  Z.of_nat (List.length (filter (fun k => contains k text) keywords)).

(** The scores dict in closed form: every style with its hit count, in
    table order. *)
Definition scored (text : str) (table : dict (list str)) : dict Z :=
  List.map (fun it => (fst it, keyword_hits text (snd it))) table.



(** The number a string of decimal digits denotes. *)
Definition digit_value (c : char) : option N :=
  if ((48 <=? c) && (c <=? 57))%N then Some (c - 48)%N else None.

Fixpoint decimal_from (s : str) (acc : N) : option N :=
  match s with
  | [] => Some acc
  | c :: s' =>
      match digit_value c with
      | Some d => decimal_from s' (10 * acc + d)%N
      | None => None
      end
  end.

Definition decimal_value (s : str) : option N :=
  match s with
  | [] => None
  | _ :: _ => decimal_from s 0%N
  end.

Definition STYLE_ORDER : list str :=
  [ lit "modern"; lit "farmhouse"; lit "contemporary"; lit "traditional";
    lit "coastal"; lit "craftsman" ].

(** A style wins in table order: nothing before it scores as much, nothing
    after it scores more. *)
Definition first_greatest (text : str) (best : str) (kws : list str) : Prop :=
  exists tb ta,
    STYLE_KEYWORDS = tb ++ (best, kws) :: ta
    /\ (forall s k, In (s, k) tb -> keyword_hits text k < keyword_hits text kws)
    /\ (forall s k, In (s, k) ta -> keyword_hits text k <= keyword_hits text kws).

(* ================================================================= *)
(** ** Structured output: what is written and what is read back *)

(** What a [str] holds: code points below 0x110000. *)
Definition code_point (c : char) : Prop := (c < 1114112)%N.

(** A code point that is written and read back on its own: not a high
    surrogate. *)
Definition char_ok (c : char) : Prop :=
  (c < 55296 \/ (56320 <= c /\ c < 1114112))%N.

(** Text that survives the structured output: nowhere a high surrogate
    directly followed by a low surrogate as two code points (the two
    would be read back as one). *)
Fixpoint text_ok (s : str) : Prop :=
  match s with
  | [] => True
  | c :: t =>
      code_point c
      /\ (Json.is_high_surrogate c = true ->
          match t with
          | [] => True
          | l :: _ => Json.is_low_surrogate l = false
          end)
      /\ text_ok t
  end.

Fixpoint text_okb (s : str) : bool :=
  match s with
  | [] => true
  | c :: t =>
      (c <? 1114112)%N
      && (negb (Json.is_high_surrogate c)
          || match t with
             | [] => true
             | l :: _ => negb (Json.is_low_surrogate l)
             end)
      && text_okb t
  end.

(** Text without any surrogate or anything above: all of the program's
    own strings. *)
Definition plain (s : str) : Prop := Forall (fun c => (c < 55296)%N) s.

Definition plainb (s : str) : bool := forallb (fun c => (c <? 55296)%N) s.

(** The input strings that reach the proposal. *)
Definition inputs_text_ok (inputs : UserInputs) : Prop :=
  Forall text_ok (required_rooms inputs)
  /\ text_ok (slope (plot inputs))
  /\ text_ok (climate (plot inputs))
  /\ text_ok (orientation (plot inputs)).

Module JsonSpec.

Import Json.

(** The number of values in a document, containers counting their
    entries. *)
Fixpoint size (v : value) : nat :=
  match v with
  | JStr _ => 1
  | JList xs => S (list_sum (List.map (fun x => S (size x)) xs))
  | JDict items => S (list_sum (List.map (fun kv => S (size (snd kv))) items))
  end.

(** Documents whose strings are [text_ok] and whose objects repeat no
    key. *)
Inductive wf : value -> Prop :=
| wf_str (s : str) : text_ok s -> wf (JStr s)
| wf_list (xs : list value) : Forall wf xs -> wf (JList xs)
| wf_dict (items : list (str * value)) :
    NoDup (List.map fst items) ->
    Forall (fun kv => text_ok (fst kv) /\ wf (snd kv)) items ->
    wf (JDict items).

(** The layout of the structured output, written out: one field per line
    at two spaces, one list item per line at four. *)
Definition NL : str := [NEWLINE].

Definition string_field (name : string) (s : str) : str :=
  lit "  " ++ encode_string (lit name) ++ lit ": " ++ encode_string s.

Definition list_field (name : string) (items : list str) : str :=
  lit "  " ++ encode_string (lit name) ++ lit ": [" ++ NL
    ++ lit "    "
    ++ join (lit "," ++ NL ++ lit "    ") (List.map encode_string items)
    ++ NL ++ lit "  ]".

Definition proposal_layout (p : DesignProposal) : str :=
  lit "{" ++ NL
    ++ join (lit "," ++ NL)
         [ string_field "selected_style" (selected_style p);
           string_field "style_confidence" (style_confidence p);
           list_field "exterior_finishes" (exterior_finishes p);
           list_field "interior_finishes" (interior_finishes p);
           list_field "suggested_features" (suggested_features p);
           list_field "site_strategy" (site_strategy_notes p);
           list_field "room_planning_notes" (room_planning p) ]
    ++ NL ++ lit "}".

(** What follows an escaped high surrogate is not the escape of a low
    surrogate. *)
Definition no_low_escape (tail : str) : Prop :=
  forall s4,
    tail = BACKSLASH :: 117%N :: s4 ->
    exists u r, decode_uXXXX s4 = ret (u, r) /\ is_low_surrogate u = false.

(** One field of an object, as [encode] writes it. *)
Definition field_text (indent level : nat) (kv : str * value) : str :=
  encode_string (fst kv) ++ lit ": " ++ encode indent (S level) (snd kv).

(** The fuel the array and object loops take for their items. *)
Definition weight (xs : list value) : nat :=
  list_sum (List.map (fun x => S (size x)) xs).

Definition fields_weight (items : list (str * value)) : nat :=
  list_sum (List.map (fun kv => S (size (snd kv))) items).

End JsonSpec.

(* ================================================================= *)
(** ** Sample command lines *)

(** A command line whose [--rooms] is blanks and commas only. *)
Definition blank_rooms_args : Args :=
  {| arg_brief := lit "a bright open concept home";
     arg_images := [];
     arg_rooms := lit " , ,  ";
     arg_plot_width := float_of_Z 15;
     arg_plot_depth := float_of_Z 30;
     arg_slope := lit "flat";
     arg_climate := lit "temperate";
     arg_orientation := lit "north-facing street";
     arg_json := false |}.

(** Inputs with a lone high surrogate in a room name and a lone low
    surrogate in the slope. *)
Definition lone_surrogate_inputs : UserInputs :=
  {| brief := lit "a modern home";
     image_descriptions := [];
     required_rooms := [lit "den " ++ [55357%N]; lit "2 bathrooms"];
     plot := {| width_m := float_of_Z 15;
                depth_m := float_of_Z 30;
                slope := [56832%N] ++ lit " flat";
                climate := lit "temperate";
                orientation := lit "north-facing street" |} |}.

(** Inputs whose only room name is a high surrogate followed by a low
    surrogate, as two code points. *)
Definition split_pair_inputs : UserInputs :=
  {| brief := lit "a modern home";
     image_descriptions := [];
     required_rooms := [[55357%N; 56832%N]];
     plot := {| width_m := float_of_Z 15;
                depth_m := float_of_Z 30;
                slope := lit "flat";
                climate := lit "temperate";
                orientation := lit "north-facing street" |} |}.



(* ================================================================= *)
(** ** Notions for the comma-separated arguments *)

(** A character that can only separate or pad items: the comma or
    whitespace. *)
Definition blank_char (c : char) : Prop := c = COMMA \/ isspace c = true.

(** An item as [comma_list] delivers it: not empty, nothing to strip, no
    comma inside. *)
Definition clean_item (x : str) : Prop :=
  x <> [] /\ strip x = x /\ ~ In COMMA x.

(** A finite float or a zero, with its sign bit. *)
Definition finite_sign (x : float) : option bool :=
  match x with
  | S754_zero s => Some s
  | S754_finite s _ _ => Some s
  | _ => None
  end.

(** Printable ASCII, space to tilde. *)
Definition printable (c : char) : Prop := (32 <= c /\ c <= 126)%N.

(** The number of line feeds in a text. *)
Definition line_feeds (s : str) : nat := count_occ N.eq_dec s Json.NEWLINE.

(** A plot with a negative width. *)
Definition negative_width_plot : PlotDetails :=
  {| width_m := float_of_Z (-15);
     depth_m := float_of_Z 30;
     slope := lit "flat";
     climate := lit "temperate";
     orientation := lit "north-facing street" |}.

(** A [--json] command line whose rooms hold a line feed, a quote and a
    character outside ASCII. *)
Definition awkward_rooms_args : Args :=
  {| arg_brief := lit "a bright home";
     arg_images := lit "stone porch";
     arg_rooms := lit "caf" ++ [233%N; 10%N; 34%N] ++ lit ",bar";
     arg_plot_width := float_of_Z 15;
     arg_plot_depth := float_of_Z 30;
     arg_slope := lit "flat";
     arg_climate := lit "temperate";
     arg_orientation := lit "north-facing street";
     arg_json := true |}.

(** A character of the structured output: a line feed or printable
    ASCII. *)
Definition output_char (c : char) : Prop := c = Json.NEWLINE \/ printable c.

Definition output_charb (c : char) : bool :=
  (N.eqb c 10 || (N.leb 32 c && N.leb c 126))%bool.

(* ================================================================= *)
(** ** Facts about the built-ins *)

Section StringFacts.

Lemma startswith_app (p post : str) : startswith p (p ++ post) = true.
Proof.
  induction p as [|a p IH]; simpl.
  - destruct post; reflexivity.
  - now rewrite N.eqb_refl, IH.
Qed.

Lemma startswith_inv (p s : str) :
  startswith p s = true -> exists post, s = p ++ post.
Proof.
  revert s; induction p as [|a p IH]; intros s H.
  - now exists s.
  - destruct s as [|b s]; simpl in H; [discriminate|].
    apply andb_true_iff in H as [Hab Hps].
    apply N.eqb_eq in Hab; subst b.
    destruct (IH _ Hps) as [post ->].
    now exists post.
Qed.

Lemma contains_startswith (k t : str) :
  startswith k t = true -> contains k t = true.
Proof. intros H. destruct t; simpl; rewrite H; reflexivity. Qed.

Lemma contains_occurs (k t : str) : contains k t = true <-> occurs_in k t.
Proof.
  split.
  - induction t as [|c t IH]; simpl; intros H.
    + rewrite orb_false_r in H.
      destruct (startswith_inv _ _ H) as [post E].
      exists [], post. exact E.
    + apply orb_true_iff in H as [H|H].
      * destruct (startswith_inv _ _ H) as [post E].
        exists [], post. exact E.
      * destruct (IH H) as (pre & post & ->).
        now exists (c :: pre), post.
  - intros (pre & post & ->).
    induction pre as [|c pre IH].
    + simpl app. apply contains_startswith, startswith_app.
    + simpl. simpl in IH. rewrite IH. apply orb_true_r.
Qed.

Lemma contains_false_not_occurs (k t : str) :
  contains k t = false <-> ~ occurs_in k t.
Proof.
  rewrite <- contains_occurs. destruct (contains k t); split; congruence.
Qed.

End StringFacts.

Section DictFacts.

Context {V : Type}.
Implicit Types (d : dict V) (k : str) (v : V).

Lemma dict_get_app_fresh d1 d2 k :
  ~ In k (dict_keys d1) -> dict_get (d1 ++ d2) k = dict_get d2 k.
Proof.
  induction d1 as [|[k' v'] d1 IH]; simpl; intros H; [reflexivity|].
  destruct (str_eq_dec k' k) as [->|_]; [tauto|].
  apply IH; tauto.
Qed.

Lemma dict_get_here d k v : dict_get ((k, v) :: d) k = Some v.
Proof. simpl. now destruct (str_eq_dec k k). Qed.

Lemma dict_setitem_app_fresh d1 d2 k v :
  ~ In k (dict_keys d1) ->
  dict_setitem (d1 ++ d2) k v = d1 ++ dict_setitem d2 k v.
Proof.
  induction d1 as [|[k' v'] d1 IH]; simpl; intros H; [reflexivity|].
  destruct (str_eq_dec k' k) as [->|_]; [tauto|].
  rewrite IH; tauto.
Qed.

Lemma dict_setitem_here d k v v' :
  dict_setitem ((k, v) :: d) k v' = (k, v') :: d.
Proof. simpl. now destruct (str_eq_dec k k). Qed.

Lemma dict_get_In d k v :
  NoDup (dict_keys d) -> In (k, v) d -> dict_get d k = Some v.
Proof.
  induction d as [|[k' v'] d IH]; simpl; intros ND H; [tauto|].
  inversion ND as [|? ? Hk ND']; subst.
  destruct H as [E|H].
  - inversion E; subst. now destruct (str_eq_dec k k).
  - destruct (str_eq_dec k' k) as [->|_].
    + exfalso. apply Hk. apply (in_map fst) in H. exact H.
    + now apply IH.
Qed.

End DictFacts.

(** [max] over a dict with [dict.get] as key: the first entry holding the
    greatest value. *)
Section MaxFacts.

Variable d : dict Z.
Hypothesis keys_distinct : NoDup (dict_keys d).

Lemma max_loop_first_greatest (rest : dict Z) :
  forall (pre : dict Z) (m : str) (vm : Z) (mid : dict Z),
    d = pre ++ (m, vm) :: mid ++ rest ->
    (forall k w, In (k, w) pre -> w < vm) ->
    (forall k w, In (k, w) mid -> w <= vm) ->
    exists before best v after,
      d = before ++ (best, v) :: after
      /\ max_loop (dict_get d) (dict_keys rest) m (Some vm) = Ok best
      /\ (forall k w, In (k, w) before -> w < v)
      /\ (forall k w, In (k, w) after -> w <= v).
Proof.
  induction rest as [|[x vx] rest IH]; intros pre m vm mid E Hpre Hmid.
  - exists pre, m, vm, mid. rewrite app_nil_r in E. simpl. auto.
  - assert (Hx : dict_get d x = Some vx).
    { apply dict_get_In; [exact keys_distinct|].
      rewrite E. apply in_or_app. right. right.
      apply in_or_app. right. now left. }
    simpl. rewrite Hx. simpl.
    destruct (Z.ltb_spec vm vx) as [Hlt|Hge].
    + apply (IH (pre ++ (m, vm) :: mid) x vx []).
      * rewrite E. rewrite <- app_assoc. reflexivity.
      * intros k w Hin. apply in_app_or in Hin as [Hin|[Hin|Hin]].
        -- specialize (Hpre _ _ Hin). lia.
        -- inversion Hin; subst. exact Hlt.
        -- specialize (Hmid _ _ Hin). lia.
      * intros k w [].
    + apply (IH pre m vm (mid ++ [(x, vx)])).
      * rewrite E. rewrite <- app_assoc. reflexivity.
      * exact Hpre.
      * intros k w Hin. apply in_app_or in Hin as [Hin|[Hin|[]]].
        -- exact (Hmid _ _ Hin).
        -- inversion Hin; subst. exact Hge.
Qed.

End MaxFacts.

Lemma max_by_first_greatest (d : dict Z) :
  NoDup (dict_keys d) ->
  d <> [] ->
  exists before best v after,
    d = before ++ (best, v) :: after
    /\ max_by (dict_keys d) (dict_get d) = Ok best
    /\ (forall k w, In (k, w) before -> w < v)
    /\ (forall k w, In (k, w) after -> w <= v).
Proof.
  intros ND Hne.
  assert (Hd : exists m vm rest, d = (m, vm) :: rest).
  { destruct d as [|[m vm] rest]; [congruence|]. now exists m, vm, rest. }
  destruct Hd as (m & vm & rest & E).
  assert (Hm : dict_get d m = Some vm).
  { apply dict_get_In; [exact ND|]. rewrite E. now left. }
  destruct (max_loop_first_greatest d ND rest [] m vm []) as
    (before & best & v & after & E' & Hmax & Hb & Ha).
  - exact E.
  - intros k w [].
  - intros k w [].
  - exists before, best, v, after. repeat split; try assumption.
    rewrite E at 1. simpl. rewrite Hm. exact Hmax.
Qed.

(* ================================================================= *)
(** ** The scoring loops *)

Section Scoring.

Variable text : str.

Lemma keyword_hits_nil : keyword_hits text [] = 0.
Proof. reflexivity. Qed.

Lemma keyword_hits_cons (k : str) (kws : list str) :
  keyword_hits text (k :: kws)
  = (if contains k text then 1 else 0) + keyword_hits text kws.
Proof.
  unfold keyword_hits. simpl. destruct (contains k text); simpl List.length; lia.
Qed.

Lemma keyword_hits_nonneg (kws : list str) : 0 <= keyword_hits text kws.
Proof. unfold keyword_hits. lia. Qed.

Lemma keyword_hits_le_length (kws : list str) :
  keyword_hits text kws <= Z.of_nat (List.length kws).
Proof.
  unfold keyword_hits. apply inj_le, filter_length_le.
Qed.

Lemma keyword_hits_zero (kws : list str) :
  (forall k, In k kws -> ~ occurs_in k text) -> keyword_hits text kws = 0.
Proof.
  induction kws as [|k kws IH]; intros H; [reflexivity|].
  rewrite keyword_hits_cons, IH by (intros; apply H; now right).
  assert (Hk : contains k text = false).
  { apply contains_false_not_occurs, H. now left. }
  now rewrite Hk.
Qed.

Lemma keyword_hits_pos (kws : list str) (k : str) :
  In k kws -> occurs_in k text -> 0 < keyword_hits text kws.
Proof.
  induction kws as [|k' kws IH]; intros Hin Hocc; [contradiction|].
  rewrite keyword_hits_cons. pose proof (keyword_hits_nonneg kws).
  destruct Hin as [->|Hin].
  - apply contains_occurs in Hocc. rewrite Hocc. lia.
  - specialize (IH Hin Hocc). destruct (contains k' text); lia.
Qed.

Lemma bump_at (pre post : dict Z) (s : str) (v : Z) :
  ~ In s (dict_keys pre) ->
  bump (pre ++ (s, v) :: post) s = Ok (pre ++ (s, v + 1) :: post).
Proof.
  intros Hfresh. unfold bump, dict_getitem.
  rewrite dict_get_app_fresh, dict_get_here by assumption. simpl.
  now rewrite dict_setitem_app_fresh, dict_setitem_here.
Qed.

Lemma for_keywords_at (s : str) (kws : list str) :
  forall (pre post : dict Z) (v : Z),
    ~ In s (dict_keys pre) ->
    for_keywords text s kws (pre ++ (s, v) :: post)
    = Ok (pre ++ (s, v + keyword_hits text kws) :: post).
Proof.
  induction kws as [|k kws IH]; intros pre post v Hfresh.
  - simpl. now rewrite keyword_hits_nil, Z.add_0_r.
  - simpl. rewrite keyword_hits_cons.
    destruct (contains k text).
    + rewrite bump_at by assumption. cbn [bind].
      rewrite IH by assumption. do 4 f_equal. lia.
    + simpl. rewrite IH by assumption. reflexivity.
Qed.

Lemma for_styles_scored (items : dict (list str)) :
  forall pre : dict Z,
    NoDup (dict_keys items) ->
    (forall s, In s (dict_keys items) -> ~ In s (dict_keys pre)) ->
    for_styles text items (pre ++ List.map (fun it => (fst it, 0)) items)
    = Ok (pre ++ scored text items).
Proof.
  induction items as [|[s kws] items IH]; intros pre ND Hfresh.
  - reflexivity.
  - inversion ND as [|? ? Hs ND']; subst.
    simpl. rewrite for_keywords_at by (apply Hfresh; now left).
    simpl.
    change (pre ++ (s, keyword_hits text kws) :: List.map (fun it => (fst it, 0)) items)
      with (pre ++ [(s, keyword_hits text kws)] ++ List.map (fun it => (fst it, 0)) items).
    rewrite app_assoc, IH.
    + now rewrite <- app_assoc.
    + exact ND'.
    + intros s' Hin Hpre. unfold dict_keys in Hpre.
      rewrite map_app in Hpre. apply in_app_or in Hpre as [Hpre|[<-|[]]].
      * apply (Hfresh s'); [now right | exact Hpre].
      * apply Hs. exact Hin.
Qed.

End Scoring.

Lemma STYLE_KEYWORDS_order : dict_keys STYLE_KEYWORDS = STYLE_ORDER.
Proof. reflexivity. Qed.

Lemma STYLE_PACKAGES_order : dict_keys STYLE_PACKAGES = STYLE_ORDER.
Proof. reflexivity. Qed.

Lemma STYLE_ORDER_distinct : NoDup STYLE_ORDER.
Proof.
  vm_compute.
  repeat (constructor; [simpl; intuition discriminate|]).
  constructor.
Qed.

Lemma dict_keys_scored (text : str) (table : dict (list str)) :
  dict_keys (scored text table) = dict_keys table.
Proof. unfold dict_keys, scored. rewrite map_map. reflexivity. Qed.

Lemma scored_split (text : str) (table : dict (list str)) :
  forall (before after : dict Z) (best : str) (v : Z),
    scored text table = before ++ (best, v) :: after ->
    exists tb kws ta,
      table = tb ++ (best, kws) :: ta
      /\ before = scored text tb
      /\ v = keyword_hits text kws
      /\ after = scored text ta.
Proof.
  intros before after best v E. unfold scored in E.
  apply map_eq_app in E as (tb & rest & -> & <- & E).
  apply map_eq_cons in E as ([s kws] & ta & -> & E1 & <-).
  inversion E1; subst.
  now exists tb, kws, ta.
Qed.

Lemma in_scored (text : str) (table : dict (list str)) (s : str) (kws : list str) :
  In (s, kws) table -> In (s, keyword_hits text kws) (scored text table).
Proof.
  intros H. unfold scored.
  apply (in_map (fun it => (fst it, keyword_hits text (snd it)))) in H. exact H.
Qed.

Section InferStyle.

Variable lower : str -> str.
Variables (brief : str) (image_descriptions : list str).

Let text := combined_text lower brief image_descriptions.

Lemma style_scores_closed :
  style_scores lower brief image_descriptions = Ok (scored text STYLE_KEYWORDS).
Proof.
  unfold style_scores. fold text.
  change (zero_scores STYLE_KEYWORDS)
    with ([] ++ List.map (fun it : str * list str => (fst it, 0)) STYLE_KEYWORDS).
  rewrite for_styles_scored.
  - reflexivity.
  - rewrite STYLE_KEYWORDS_order. exact STYLE_ORDER_distinct.
  - intros s _ [].
Qed.

Lemma infer_style_cases :
  exists best kws,
    first_greatest text best kws
    /\ infer_style lower brief image_descriptions
       = Ok (if keyword_hits text kws =? 0 then lit "contemporary" else best).
Proof.
  assert (ND : NoDup (dict_keys (scored text STYLE_KEYWORDS))).
  { rewrite dict_keys_scored, STYLE_KEYWORDS_order. exact STYLE_ORDER_distinct. }
  destruct (max_by_first_greatest (scored text STYLE_KEYWORDS) ND) as
    (before & best & v & after & E & Hmax & Hb & Ha).
  { discriminate. }
  destruct (scored_split _ _ _ _ _ _ E) as (tb & kws & ta & Et & -> & -> & ->).
  exists best, kws. split.
  - exists tb, ta. split; [exact Et|]. split.
    + intros s k Hin. apply (Hb s). now apply in_scored.
    + intros s k Hin. apply (Ha s). now apply in_scored.
  - unfold infer_style. rewrite style_scores_closed. cbn [bind].
    rewrite Hmax. cbn [bind]. unfold dict_getitem.
    rewrite (dict_get_In _ best (keyword_hits text kws) ND).
    + cbn [bind]. now destruct (keyword_hits text kws =? 0).
    + rewrite E. apply in_or_app. right. now left.
Qed.

End InferStyle.

(* ================================================================= *)
(** ** Facts about the tables *)

Lemma STYLE_KEYWORDS_distinct :
  forall style keywords, In (style, keywords) STYLE_KEYWORDS -> NoDup keywords.
Proof.
  intros style keywords H.
  repeat (destruct H as [H|H]; [inversion H; subst; clear H|]);
    try contradiction;
    vm_compute;
    repeat (constructor; [simpl; intuition discriminate|]);
    constructor.
Qed.

Lemma no_keyword_by_check (text : str) :
  forallb (fun it => forallb (fun k => negb (contains k text)) (snd it))
          STYLE_KEYWORDS = true ->
  forall style keywords k,
    In (style, keywords) STYLE_KEYWORDS -> In k keywords -> ~ occurs_in k text.
Proof.
  intros H style keywords k Hs Hk.
  rewrite forallb_forall in H. specialize (H _ Hs). simpl in H.
  rewrite forallb_forall in H. specialize (H _ Hk).
  apply contains_false_not_occurs. now apply negb_true_iff.
Qed.

Lemma package_lookup (style : str) :
  In style STYLE_ORDER ->
  exists e i f,
    dict_getitem STYLE_PACKAGES style
    = Ok [ (lit "exterior", e); (lit "interior", i); (lit "features", f) ]
    /\ List.length e = 3%nat /\ List.length i = 3%nat /\ List.length f = 3%nat.
Proof.
  intros H.
  repeat (destruct H as [H|H]; [subst style|]); try contradiction;
    (do 3 eexists; split; [vm_compute; reflexivity|repeat split]).
Qed.

Lemma package_fields (e i f : list str) :
  let package := [ (lit "exterior", e); (lit "interior", i); (lit "features", f) ] in
  dict_getitem package (lit "exterior") = Ok e
  /\ dict_getitem package (lit "interior") = Ok i
  /\ dict_getitem package (lit "features") = Ok f.
Proof. repeat split. Qed.

Lemma STYLE_PACKAGES_threes :
  forall style package name items,
    In (style, package) STYLE_PACKAGES -> In (name, items) package ->
    List.length items = 3%nat.
Proof.
  intros style package name items Hs Hn.
  repeat (destruct Hs as [Hs|Hs]; [inversion Hs; subst; clear Hs|]);
    try contradiction;
    repeat (destruct Hn as [Hn|Hn]; [inversion Hn; subst; clear Hn|]);
    try contradiction; reflexivity.
Qed.

(* ================================================================= *)
(** ** Style inference *)

Section InferStyleResults.

Variable lower : str -> str.

Lemma infer_style_in_order (brief : str) (images : list str) :
  exists style,
    infer_style lower brief images = Ok style /\ In style STYLE_ORDER.
Proof.
  destruct (infer_style_cases lower brief images) as
    (best & kws & (tb & ta & Et & _ & _) & Hinfer).
  eexists. split; [exact Hinfer|].
  destruct (keyword_hits _ kws =? 0).
  - vm_compute. tauto.
  - rewrite <- STYLE_KEYWORDS_order, Et. unfold dict_keys.
    rewrite map_app. apply in_or_app. right. now left.
Qed.

(** C3: the score of each style, as the two loops leave it in [scores], is
    the number of that style's keywords that occur as substrings of the
    lowercased text made of the brief and the image descriptors; a keyword
    counts once however often it occurs, and nothing is required of the
    characters around an occurrence. *)
Theorem C3_score_counts_occurring_keywords (brief : str) (images : list str) :
  let text := lower (brief ++ lit " " ++ join (lit " ") images) in
  exists scores,
    style_scores lower brief images = Ok scores
    /\ dict_keys scores = dict_keys STYLE_KEYWORDS
    /\ forall style keywords,
         In (style, keywords) STYLE_KEYWORDS ->
         exists hits,
           NoDup hits
           /\ (forall k, In k hits <-> In k keywords /\ occurs_in k text)
           /\ dict_get scores style = Some (Z.of_nat (List.length hits)).
Proof.
  intros text. exists (scored text STYLE_KEYWORDS).
  split; [apply style_scores_closed|].
  split; [apply dict_keys_scored|].
  intros style keywords Hin.
  exists (filter (fun k => contains k text) keywords).
  split; [|split].
  - apply NoDup_filter. exact (STYLE_KEYWORDS_distinct _ _ Hin).
  - intros k. rewrite filter_In, contains_occurs. reflexivity.
  - apply dict_get_In.
    + rewrite dict_keys_scored, STYLE_KEYWORDS_order. exact STYLE_ORDER_distinct.
    + exact (in_scored text _ _ _ Hin).
Qed.

(** C1: when at least one keyword occurs, [infer_style] returns a style of
    maximal score, and among the styles of maximal score the first one in
    the declaration order modern, farmhouse, contemporary, traditional,
    coastal, craftsman; a style scoring strictly more than every other
    style is returned wherever it stands in that order. *)
Theorem C1_infer_style_first_maximal (brief : str) (images : list str) :
  let text := combined_text lower brief images in
  (exists style keywords k,
      In (style, keywords) STYLE_KEYWORDS /\ In k keywords /\ occurs_in k text) ->
  dict_keys STYLE_KEYWORDS
  = [ lit "modern"; lit "farmhouse"; lit "contemporary"; lit "traditional";
      lit "coastal"; lit "craftsman" ]
  /\ (exists best kws,
         first_greatest text best kws
         /\ infer_style lower brief images = Ok best)
  /\ (forall style kws,
         In (style, kws) STYLE_KEYWORDS ->
         (forall s k, In (s, k) STYLE_KEYWORDS -> s <> style ->
                      keyword_hits text k < keyword_hits text kws) ->
         infer_style lower brief images = Ok style).
Proof.
  intros text (style0 & kws0 & k0 & Hs0 & Hk0 & Hocc).
  pose proof (keyword_hits_pos text kws0 k0 Hk0 Hocc) as Hpos.
  destruct (infer_style_cases lower brief images) as
    (best & kws & Hfirst & Hinfer).
  fold text in Hfirst, Hinfer.
  assert (ND : NoDup (dict_keys STYLE_KEYWORDS)).
  { rewrite STYLE_KEYWORDS_order. exact STYLE_ORDER_distinct. }
  assert (Hmax : forall s k, In (s, k) STYLE_KEYWORDS ->
                             keyword_hits text k <= keyword_hits text kws).
  { destruct Hfirst as (tb & ta & Et & Hb & Ha).
    intros s k Hin. rewrite Et in Hin.
    apply in_app_or in Hin as [Hin|[Hin|Hin]].
    - specialize (Hb _ _ Hin). lia.
    - inversion Hin; subst. lia.
    - exact (Ha _ _ Hin). }
  assert (Hbest : In (best, kws) STYLE_KEYWORDS).
  { destruct Hfirst as (tb & ta & Et & _). rewrite Et.
    apply in_or_app. right. now left. }
  assert (Hnz : (keyword_hits text kws =? 0) = false).
  { apply Z.eqb_neq. specialize (Hmax _ _ Hs0). lia. }
  rewrite Hnz in Hinfer.
  split; [reflexivity|]. split.
  - now exists best, kws.
  - intros style kws' Hin Hstrict.
    destruct (str_eq_dec best style) as [<-|Hne]; [exact Hinfer|].
    specialize (Hstrict _ _ Hbest Hne). specialize (Hmax _ _ Hin). lia.
Qed.

(** C2: when no keyword of any style occurs in the lowercased combined
    text, [infer_style] returns the default, contemporary. *)
Theorem C2_infer_style_default (brief : str) (images : list str) :
  (forall style keywords k,
      In (style, keywords) STYLE_KEYWORDS -> In k keywords ->
      ~ occurs_in k (combined_text lower brief images)) ->
  infer_style lower brief images = Ok (lit "contemporary").
Proof.
  intros Hnone.
  destruct (infer_style_cases lower brief images) as
    (best & kws & (tb & ta & Et & _ & _) & Hinfer).
  rewrite Hinfer.
  rewrite (keyword_hits_zero _ kws); [reflexivity|].
  intros k Hk. apply (Hnone best kws k); [|exact Hk].
  rewrite Et. apply in_or_app. right. now left.
Qed.

End InferStyleResults.

Lemma C1_witness :
  let text := combined_text ascii_lower (lit "a Modern barn") [] in
  (exists style keywords k,
      In (style, keywords) STYLE_KEYWORDS /\ In k keywords /\ occurs_in k text)
  /\ exists best kws,
       first_greatest text best kws
       /\ infer_style ascii_lower (lit "a Modern barn") [] = Ok best.
Proof.
  assert (H : exists style keywords k,
             In (style, keywords) STYLE_KEYWORDS /\ In k keywords
             /\ occurs_in k (combined_text ascii_lower (lit "a Modern barn") [])).
  { exists (lit "modern"), (snd (hd (lit "", []) STYLE_KEYWORDS)), (lit "modern").
    split; [now left|]. split; [now left|].
    apply contains_occurs. vm_compute. reflexivity. }
  split; [exact H|].
  exact (proj1 (proj2
    (C1_infer_style_first_maximal ascii_lower (lit "a Modern barn") [] H))).
Defined.

Lemma C2_witness :
  (forall style keywords k,
      In (style, keywords) STYLE_KEYWORDS -> In k keywords ->
      ~ occurs_in k (combined_text ascii_lower (lit "A quiet HOME by the lake") []))
  /\ infer_style ascii_lower (lit "A quiet HOME by the lake") []
     = Ok (lit "contemporary").
Proof.
  assert (H : forall style keywords k,
             In (style, keywords) STYLE_KEYWORDS -> In k keywords ->
             ~ occurs_in k (combined_text ascii_lower
                                          (lit "A quiet HOME by the lake") [])).
  { apply no_keyword_by_check. vm_compute. reflexivity. }
  split; [exact H|].
  exact (C2_infer_style_default ascii_lower _ _ H).
Defined.

(** The end-to-end brief of the specification. *)
Example infer_modern :
  infer_style ascii_lower (lit "I want a modern minimal house with glass walls") []
  = Ok (lit "modern").
Proof. vm_compute. reflexivity. Qed.

(** Containment is by substring: [light] is found inside [delightful]. *)
Example light_in_delightful :
  infer_style ascii_lower (lit "a delightful place") [] = Ok (lit "coastal").
Proof. vm_compute. reflexivity. Qed.

(** A repeated keyword counts once: one hit for modern ties with one hit
    for farmhouse, and modern comes first. *)
Example repeated_keyword_counts_once :
  style_scores ascii_lower (lit "modern, modern, modern barn") []
  = Ok [ (lit "modern", 1); (lit "farmhouse", 1); (lit "contemporary", 0);
         (lit "traditional", 0); (lit "coastal", 0); (lit "craftsman", 0) ].
Proof. vm_compute. reflexivity. Qed.

(** A later style with more hits beats an earlier one; the image
    descriptors count like the brief. *)
Example more_hits_beat_order :
  infer_style ascii_lower (lit "modern") [lit "Beach view"; lit "OCEAN air"]
  = Ok (lit "coastal").
Proof. vm_compute. reflexivity. Qed.

(* ================================================================= *)
(** ** Proposal assembly *)

Section Propose.

Variable lower : str -> str.

(** [propose] in closed form: the inferred style is one of the six, its
    package is in the table with its three lists, and the record is built
    from them. *)
Lemma propose_closed (inputs : UserInputs) :
  exists style e i f,
    In style STYLE_ORDER
    /\ infer_style lower (brief inputs) (image_descriptions inputs) = Ok style
    /\ dict_getitem STYLE_PACKAGES style
       = Ok [ (lit "exterior", e); (lit "interior", i); (lit "features", f) ]
    /\ List.length e = 3%nat /\ List.length i = 3%nat /\ List.length f = 3%nat
    /\ propose lower inputs
       = Ok {| selected_style := style;
               style_confidence :=
                 match image_descriptions inputs with
                 | [] => lit "medium"
                 | _ :: _ => lit "high"
                 end;
               exterior_finishes := e;
               interior_finishes := i;
               suggested_features := f;
               site_strategy_notes := site_strategy (plot inputs);
               room_planning := room_planning_notes (required_rooms inputs) |}.
Proof.
  destruct (infer_style_in_order lower (brief inputs) (image_descriptions inputs))
    as (style & Hinfer & Hin).
  destruct (package_lookup style Hin) as (e & i & f & Hpkg & He & Hi & Hf).
  exists style, e, i, f. repeat (split; [assumption|]).
  unfold propose. rewrite Hinfer. cbn [bind]. rewrite Hpkg. cbn [bind].
  destruct (package_fields e i f) as (-> & -> & ->). cbn [bind].
  destruct (image_descriptions inputs); reflexivity.
Qed.

(** C4: [propose] returns a proposal for every input; the lookup in the
    package table cannot fail, because [infer_style] always returns one of
    the six style names and these are exactly the keys of that table. *)
Theorem C4_propose_never_fails (inputs : UserInputs) :
  (exists proposal, propose lower inputs = Ok proposal)
  /\ (exists style package,
         infer_style lower (brief inputs) (image_descriptions inputs) = Ok style
         /\ In style (dict_keys STYLE_KEYWORDS)
         /\ dict_getitem STYLE_PACKAGES style = Ok package)
  /\ dict_keys STYLE_PACKAGES = dict_keys STYLE_KEYWORDS
  /\ dict_keys STYLE_PACKAGES
     = [ lit "modern"; lit "farmhouse"; lit "contemporary"; lit "traditional";
         lit "coastal"; lit "craftsman" ].
Proof.
  destruct (propose_closed inputs) as
    (style & e & i & f & Hin & Hinfer & Hpkg & _ & _ & _ & Hp).
  split; [eexists; exact Hp|].
  split; [|split; reflexivity].
  exists style. eexists. rewrite STYLE_KEYWORDS_order. eauto.
Qed.

(** C5: the confidence of the proposal is high exactly when there is at
    least one image descriptor and medium exactly when there is none;
    nothing else of the input enters it. *)
Theorem C5_confidence_from_images (inputs : UserInputs) :
  exists proposal,
    propose lower inputs = Ok proposal
    /\ (style_confidence proposal = lit "high"
        <-> image_descriptions inputs <> [])
    /\ (style_confidence proposal = lit "medium"
        <-> image_descriptions inputs = [])
    /\ forall inputs' proposal',
         propose lower inputs' = Ok proposal' ->
         (image_descriptions inputs' = [] <-> image_descriptions inputs = []) ->
         style_confidence proposal' = style_confidence proposal.
Proof.
  destruct (propose_closed inputs) as
    (style & e & i & f & _ & _ & _ & _ & _ & _ & Hp).
  eexists. split; [exact Hp|]. cbn [style_confidence].
  split; [|split].
  - destruct (image_descriptions inputs); split; intros H;
      try discriminate; try congruence; reflexivity.
  - destruct (image_descriptions inputs); split; intros H;
      try discriminate; try congruence; reflexivity.
  - intros inputs' proposal' Hp' Hsame.
    destruct (propose_closed inputs') as
      (style' & e' & i' & f' & _ & _ & _ & _ & _ & _ & Hq).
    rewrite Hq in Hp'. inversion Hp'; subst proposal'. cbn [style_confidence].
    destruct (image_descriptions inputs), (image_descriptions inputs');
      try reflexivity; destruct Hsame as [H1 H2].
    + discriminate (H2 eq_refl).
    + discriminate (H1 eq_refl).
Qed.

(** C10: the exterior, interior and feature lists of the proposal hold
    three strings each, every list of every entry of the package table
    holding three. *)
Theorem C10_three_items_per_list (inputs : UserInputs) :
  (exists proposal,
      propose lower inputs = Ok proposal
      /\ List.length (exterior_finishes proposal) = 3%nat
      /\ List.length (interior_finishes proposal) = 3%nat
      /\ List.length (suggested_features proposal) = 3%nat)
  /\ forall style package,
       In (style, package) STYLE_PACKAGES ->
       dict_keys package = [ lit "exterior"; lit "interior"; lit "features" ]
       /\ forall name items, In (name, items) package -> List.length items = 3%nat.
Proof.
  split.
  - destruct (propose_closed inputs) as
      (style & e & i & f & _ & _ & _ & He & Hi & Hf & Hp).
    eexists. split; [exact Hp|]. cbn. auto.
  - intros style package Hin. split.
    + repeat (destruct Hin as [Hin|Hin]; [inversion Hin; subst; clear Hin|]);
        try contradiction; reflexivity.
    + intros name items. exact (STYLE_PACKAGES_threes _ _ _ _ Hin).
Qed.

End Propose.

(* ================================================================= *)
(** ** Number formatting *)

Section Formatting.

Lemma decimal_from_app (s t : str) :
  forall acc,
    decimal_from (s ++ t) acc
    = match decimal_from s acc with
      | Some acc' => decimal_from t acc'
      | None => None
      end.
Proof.
  induction s as [|c s IH]; intros acc; simpl; [reflexivity|].
  destruct (digit_value c); [apply IH|reflexivity].
Qed.

Lemma digit_value_digit (d : N) :
  (d < 10)%N -> digit_value (48 + d)%N = Some d.
Proof.
  intros H. unfold digit_value.
  replace ((48 <=? 48 + d)%N) with true by (symmetry; apply N.leb_le; lia).
  replace ((48 + d <=? 57)%N) with true by (symmetry; apply N.leb_le; lia).
  cbn [andb]. f_equal. lia.
Qed.

Lemma digits_from_step (fuel : nat) (n : N) (acc : str) :
  digits_from (S fuel) n acc
  = let acc' := (48 + n mod 10)%N :: acc in
    if (n <? 10)%N then acc' else digits_from fuel (n / 10) acc'.
Proof. reflexivity. Qed.

Lemma digits_from_spec (fuel : nat) :
  forall (n : N) (acc : str),
    (n < 2 ^ N.of_nat (S fuel))%N ->
    exists ds k,
      digits_from (S fuel) n acc = ds ++ acc
      /\ ds <> []
      /\ forall a, decimal_from ds a = Some (a * 10 ^ k + n)%N.
Proof.
  induction fuel as [|fuel IH]; intros n acc Hn;
    rewrite digits_from_step; cbv zeta;
    destruct (N.ltb_spec n 10) as [Hlt|Hge].
  - exists [(48 + n mod 10)%N], 1%N. split; [reflexivity|].
    split; [discriminate|]. intros a. cbn [decimal_from].
    rewrite N.mod_small by exact Hlt.
    rewrite digit_value_digit by exact Hlt. f_equal. lia.
  - exfalso. change (2 ^ N.of_nat 1)%N with 2%N in Hn. lia.
  - exists [(48 + n mod 10)%N], 1%N. split; [reflexivity|].
    split; [discriminate|]. intros a. cbn [decimal_from].
    rewrite N.mod_small by exact Hlt.
    rewrite digit_value_digit by exact Hlt. f_equal. lia.
  - assert (Hdiv : (n / 10 < 2 ^ N.of_nat (S fuel))%N).
    { apply N.Div0.div_lt_upper_bound.
      rewrite (Nat2N.inj_succ (S fuel)), N.pow_succ_r' in Hn. lia. }
    destruct (IH (n / 10)%N ((48 + n mod 10)%N :: acc) Hdiv)
      as (ds & k & E & Hne & Hval).
    exists (ds ++ [(48 + n mod 10)%N]), (k + 1)%N.
    split; [rewrite E, <- app_assoc; reflexivity|].
    split; [destruct ds; discriminate|].
    intros a. rewrite decimal_from_app, Hval. cbn [decimal_from].
    rewrite digit_value_digit by (apply N.mod_lt; lia).
    f_equal. rewrite N.pow_add_r, N.pow_1_r.
    pose proof (N.div_mod n 10). lia.
Qed.

Lemma decimal_value_digits (n : N) : decimal_value (digits n) = Some n.
Proof.
  unfold digits.
  destruct (digits_from_spec (N.to_nat (N.log2 n)) n []) as
    (ds & k & E & Hne & Hval).
  - rewrite Nat2N.inj_succ, N2Nat.id.
    destruct n as [|p]; [reflexivity|].
    apply N.log2_spec. reflexivity.
  - rewrite E, app_nil_r. unfold decimal_value.
    destruct ds as [|c ds]; [congruence|].
    rewrite Hval. reflexivity.
Qed.



End Formatting.

(* ================================================================= *)
(** ** Site strategy and room planning notes *)



(** C7: [room_planning_notes] returns three notes for every list of
    rooms.  The first contains the rooms joined by comma and space, in
    order; for 3 bedrooms and 2 bathrooms it contains
    [3 bedrooms, 2 bathrooms].  The second and third do not depend on the
    rooms. *)
Theorem C7_room_planning_notes (rooms : list str) :
  List.length (room_planning_notes rooms) = 3%nat
  /\ nth 0 (room_planning_notes rooms) []
     = lit "Prioritize adjacency planning for: " ++ join (lit ", ") rooms ++ lit "."
  /\ occurs_in (join (lit ", ") rooms) (nth 0 (room_planning_notes rooms) [])
  /\ (forall a b c more,
         join (lit ", ") [a] = a
         /\ join (lit ", ") (a :: b :: more)
            = a ++ lit ", " ++ join (lit ", ") (b :: more)
         /\ join (lit ", ") [a; b; c] = a ++ lit ", " ++ b ++ lit ", " ++ c)
  /\ occurs_in (lit "3 bedrooms, 2 bathrooms")
               (nth 0 (room_planning_notes [lit "3 bedrooms"; lit "2 bathrooms"]) [])
  /\ nth 1 (room_planning_notes rooms) []
     = lit "Keep kitchen, dining, and family spaces connected; isolate acoustic-sensitive spaces."
  /\ nth 2 (room_planning_notes rooms) []
     = lit "Plan storage early: pantry, linen, utility, and integrated wardrobes."
  /\ forall rooms',
       nth 1 (room_planning_notes rooms') [] = nth 1 (room_planning_notes rooms) []
       /\ nth 2 (room_planning_notes rooms') [] = nth 2 (room_planning_notes rooms) [].
Proof.
  split; [reflexivity|]. split; [reflexivity|].
  split.
  { eexists. eexists. reflexivity. }
  split.
  { intros a b c more. repeat split. }
  split.
  { apply contains_occurs. vm_compute. reflexivity. }
  repeat split.
Qed.

Section EmptyRooms.

Variable lower : str -> str.

Lemma comma_list_all_blank (text : str) :
  (forall seg, In seg (split_char COMMA text) -> strip seg = []) ->
  comma_list text = [].
Proof.
  unfold comma_list. intros H.
  induction (split_char COMMA text) as [|seg segs IH]; [reflexivity|].
  simpl. rewrite (H seg) by now left. simpl.
  apply IH. intros s Hs. apply H. now right.
Qed.

(** C9: a [--rooms] value whose comma-separated segments are all empty
    after trimming gives the empty room list; [room_planning_notes] then
    still returns three notes, the first being the template with nothing
    between the colon and the period, so it ends in [for: .]. *)
Theorem C9_empty_rooms_notes (args : Args) :
  (forall seg, In seg (split_char COMMA (arg_rooms args)) -> strip seg = []) ->
  required_rooms (inputs_of_args args) = []
  /\ room_planning_notes []
     = [ lit "Prioritize adjacency planning for: .";
         lit "Keep kitchen, dining, and family spaces connected; isolate acoustic-sensitive spaces.";
         lit "Plan storage early: pantry, linen, utility, and integrated wardrobes." ]
  /\ (exists before,
         nth 0 (room_planning_notes []) [] = before ++ lit "for: .")
  /\ exists proposal,
       propose lower (inputs_of_args args) = Ok proposal
       /\ room_planning proposal = room_planning_notes []
       /\ List.length (room_planning proposal) = 3%nat.
Proof.
  intros Hblank.
  assert (Hrooms : required_rooms (inputs_of_args args) = []).
  { cbn [inputs_of_args required_rooms]. now apply comma_list_all_blank. }
  split; [exact Hrooms|]. split; [reflexivity|]. split.
  { exists (lit "Prioritize adjacency planning "). reflexivity. }
  destruct (propose_closed lower (inputs_of_args args)) as
    (style & e & i & f & _ & _ & _ & _ & _ & _ & Hp).
  eexists. split; [exact Hp|]. cbn [room_planning]. rewrite Hrooms.
  split; reflexivity.
Qed.

End EmptyRooms.

Lemma C9_witness :
  (forall seg, In seg (split_char COMMA (arg_rooms blank_rooms_args)) ->
               strip seg = [])
  /\ required_rooms (inputs_of_args blank_rooms_args) = [].
Proof.
  assert (H : forall seg,
             In seg (split_char COMMA (arg_rooms blank_rooms_args)) ->
             strip seg = []).
  { intros seg Hin. vm_compute in Hin.
    repeat (destruct Hin as [<-|Hin]; [reflexivity|]). contradiction. }
  split; [exact H|].
  exact (proj1 (C9_empty_rooms_notes ascii_lower blank_rooms_args H)).
Defined.

(* ================================================================= *)
(** ** Facts about the [json] model *)

Module JsonFacts.

Import Json JsonSpec.

Lemma unhex_hex_digit (d : N) :
  (d < 16)%N -> unhex (hex_digit d) = Some d.
Proof.
  intros Hd. unfold unhex, hex_digit.
  destruct (N.ltb_spec d 10) as [Hlt|Hge].
  - replace ((48 <=? 48 + d)%N) with true by (symmetry; apply N.leb_le; lia).
    replace ((48 + d <=? 57)%N) with true by (symmetry; apply N.leb_le; lia).
    cbn [andb]. f_equal. lia.
  - replace ((87 + d <=? 57)%N) with false by (symmetry; apply N.leb_gt; lia).
    rewrite andb_false_r.
    replace ((97 <=? 87 + d)%N) with true by (symmetry; apply N.leb_le; lia).
    replace ((87 + d <=? 102)%N) with true by (symmetry; apply N.leb_le; lia).
    cbn [andb]. f_equal. lia.
Qed.

Lemma hex4_value (n : N) :
  (n < 65536)%N ->
  (((N.shiftr n 12 mod 16 * 16 + N.shiftr n 8 mod 16) * 16
    + N.shiftr n 4 mod 16) * 16 + n mod 16 = n)%N.
Proof.
  intros Hn. rewrite !N.shiftr_div_pow2.
  change (2 ^ 12)%N with 4096%N. change (2 ^ 8)%N with 256%N.
  change (2 ^ 4)%N with 16%N.
  zify. Z.to_euclidean_division_equations. lia.
Qed.

Lemma decode_hex4 (n : N) (tail : str) :
  (n < 65536)%N -> decode_uXXXX (hex4 n ++ tail) = ret (n, tail).
Proof.
  intros Hn. unfold hex4. cbn [app]. unfold decode_uXXXX.
  rewrite !unhex_hex_digit by (apply N.mod_lt; discriminate).
  rewrite hex4_value by exact Hn. reflexivity.
Qed.

Lemma lor_high_low (h l k : N) :
  (l < 2 ^ k)%N -> N.lor (h * 2 ^ k) l = (h * 2 ^ k + l)%N.
Proof.
  intros Hl.
  assert (Hdisj : N.land (h * 2 ^ k) l = 0%N).
  { apply N.bits_inj. intros i. rewrite N.land_spec, N.bits_0.
    destruct (N.lt_ge_cases i k) as [Hik|Hik].
    - now rewrite N.mul_pow2_bits_low.
    - rewrite <- (N.mod_small l (2 ^ k)) by exact Hl.
      rewrite N.mod_pow2_bits_high by exact Hik. apply andb_false_r. }
  now rewrite (N.add_nocarry_lxor _ _ Hdisj), (N.lxor_lor _ _ Hdisj).
Qed.

(** The surrogate pair of a code point beyond the BMP. *)
Lemma surrogate_pair (c : N) :
  (65536 <= c < 1114112)%N ->
  let n := (c - 65536)%N in
  N.lor 55296 (N.land (N.shiftr n 10) 1023) = (55296 + n / 1024)%N
  /\ N.lor 56320 (N.land n 1023) = (56320 + n mod 1024)%N
  /\ (n / 1024 < 1024)%N.
Proof.
  intros Hc n.
  assert (Hn : (n < 1048576)%N) by (unfold n; lia).
  assert (Hq : (n / 1024 < 1024)%N) by (apply N.Div0.div_lt_upper_bound; lia).
  change 1023%N with (N.ones 10). rewrite !N.land_ones, N.shiftr_div_pow2.
  change (2 ^ 10)%N with 1024%N.
  rewrite (N.mod_small (n / 1024) 1024) by exact Hq.
  change 55296%N with (54 * 2 ^ 10)%N. change 56320%N with (55 * 2 ^ 10)%N.
  rewrite !lor_high_low.
  - repeat split; exact Hq.
  - apply N.mod_lt. discriminate.
  - exact Hq.
Qed.

Lemma surrogate_join (c : N) :
  (65536 <= c < 1114112)%N ->
  let n := (c - 65536)%N in
  (65536 + N.lor (N.shiftl (55296 + n / 1024 - 55296) 10)
                 (56320 + n mod 1024 - 56320) = c)%N.
Proof.
  intros Hc n.
  rewrite (N.add_comm 55296), (N.add_comm 56320), !N.add_sub.
  rewrite N.shiftl_mul_pow2, lor_high_low by (apply N.mod_lt; discriminate).
  change (2 ^ 10)%N with 1024%N.
  pose proof (N.div_mod n 1024 ltac:(discriminate)). unfold n in *. lia.
Qed.

Lemma scanstring_step (n : nat) (c : char) (s1 : str) :
  N.eqb c QUOTE = false -> N.eqb c BACKSLASH = false -> N.ltb c 32 = false ->
  scanstring (S n) (c :: s1)
  = pbind (scanstring n s1) (fun t => ret (c :: fst t, snd t)).
Proof. intros H1 H2 H3. cbn [scanstring]. now rewrite H1, H2, H3. Qed.

Lemma scanstring_u_single (n : nat) (u : N) (tail : str) :
  (u < 65536)%N -> is_high_surrogate u = false ->
  scanstring (S n) (u_escape u ++ tail)
  = pbind (scanstring n tail) (fun t => ret (u :: fst t, snd t)).
Proof.
  intros Hu Hhigh. unfold u_escape. cbn [app scanstring].
  change (N.eqb BACKSLASH QUOTE) with false.
  change (N.eqb BACKSLASH BACKSLASH) with true.
  change (N.eqb 117 117) with true. cbv iota.
  rewrite decode_hex4 by exact Hu. cbn [pbind ret]. now rewrite Hhigh.
Qed.

Lemma scanstring_u_pair (n : nat) (q r : N) (tail : str) :
  (q < 1024)%N -> (r < 1024)%N ->
  scanstring (S n) (u_escape (55296 + q) ++ u_escape (56320 + r) ++ tail)
  = pbind (scanstring n tail)
          (fun t => ret ((65536 + N.lor (N.shiftl (55296 + q - 55296) 10)
                                        (56320 + r - 56320))%N :: fst t,
                         snd t)).
Proof.
  intros Hq Hr.
  assert (H1 : (55296 + q < 65536)%N) by lia.
  assert (H2 : (56320 + r < 65536)%N) by lia.
  assert (Hhigh : is_high_surrogate (55296 + q) = true).
  { unfold is_high_surrogate. apply andb_true_iff. split; apply N.leb_le; lia. }
  assert (Hlow : is_low_surrogate (56320 + r) = true).
  { unfold is_low_surrogate. apply andb_true_iff. split; apply N.leb_le; lia. }
  unfold u_escape. cbn [app scanstring].
  change (N.eqb BACKSLASH QUOTE) with false.
  change (N.eqb BACKSLASH BACKSLASH) with true.
  change (N.eqb 117 117) with true. cbv iota.
  rewrite (decode_hex4 _ _ H1). cbn [pbind ret]. rewrite Hhigh.
  change (N.eqb BACKSLASH BACKSLASH) with true.
  change (N.eqb 117 117) with true. cbn [andb].
  rewrite (decode_hex4 _ _ H2). cbn [pbind ret]. rewrite Hlow.
  reflexivity.
Qed.

(** Reading back one encoded character. *)
Lemma scanstring_escape_char (n : nat) (c : char) (tail : str) :
  char_ok c ->
  scanstring (S n) (escape_char c ++ tail)
  = pbind (scanstring n tail) (fun t => ret (c :: fst t, snd t)).
Proof.
  intros Hok. unfold escape_char.
  destruct (N.eqb_spec c QUOTE) as [->|Hq]; [reflexivity|].
  destruct (N.eqb_spec c BACKSLASH) as [->|Hb]; [reflexivity|].
  destruct (N.eqb_spec c 8) as [->|H8]; [reflexivity|].
  destruct (N.eqb_spec c 12) as [->|H12]; [reflexivity|].
  destruct (N.eqb_spec c 10) as [->|H10]; [reflexivity|].
  destruct (N.eqb_spec c 13) as [->|H13]; [reflexivity|].
  destruct (N.eqb_spec c 9) as [->|H9]; [reflexivity|].
  destruct (N.leb_spec 32 c) as [Hlo|Hlo]; cbn [andb].
  - destruct (N.leb_spec c 126) as [Hhi|Hhi].
    + cbn [app]. apply scanstring_step.
      * now apply N.eqb_neq.
      * now apply N.eqb_neq.
      * apply N.ltb_ge. exact Hlo.
    + destruct (N.ltb_spec c 65536) as [Hbmp|Hbmp].
      * apply scanstring_u_single; [exact Hbmp|].
        unfold is_high_surrogate. unfold char_ok in Hok.
        apply andb_false_iff.
        destruct Hok as [Hok|Hok]; [left; apply N.leb_gt|right; apply N.leb_gt]; lia.
      * assert (Hc : (65536 <= c < 1114112)%N) by (unfold char_ok in Hok; lia).
        destruct (surrogate_pair c Hc) as (-> & -> & Hq1).
        rewrite <- app_assoc.
        rewrite scanstring_u_pair by (try exact Hq1; apply N.mod_lt; discriminate).
        rewrite (surrogate_join c Hc). reflexivity.
  - destruct (N.ltb_spec c 65536) as [Hbmp|Hbmp]; [|lia].
    apply scanstring_u_single; [exact Hbmp|].
    unfold is_high_surrogate. apply andb_false_iff. left. apply N.leb_gt. lia.
Qed.

Lemma escape_char_nonempty (c : char) : escape_char c <> [].
Proof.
  unfold escape_char, u_escape.
  repeat match goal with
         | |- context [if ?b then _ else _] => destruct b
         end; discriminate.
Qed.

Lemma escape_length (s : str) :
  (List.length s <= List.length (flat_map escape_char s))%nat.
Proof.
  induction s as [|c s IH]; [reflexivity|].
  cbn [flat_map]. rewrite length_app. cbn [List.length].
  pose proof (escape_char_nonempty c).
  destruct (escape_char c); [congruence|]. cbn [List.length]. lia.
Qed.

Lemma escape_char_high (c : char) :
  is_high_surrogate c = true -> escape_char c = u_escape c.
Proof.
  unfold is_high_surrogate. intros H.
  apply andb_true_iff in H as [H1 H2].
  apply N.leb_le in H1. apply N.leb_le in H2.
  unfold escape_char.
  repeat match goal with
         | |- context [if N.eqb c ?b then _ else _] =>
             destruct (N.eqb_spec c b) as [->|_];
             [exfalso; unfold QUOTE, BACKSLASH in *; lia|]
         end.
  replace ((c <=? 126)%N) with false by (symmetry; apply N.leb_gt; lia).
  rewrite andb_false_r.
  replace ((c <? 65536)%N) with true by (symmetry; apply N.ltb_lt; lia).
  reflexivity.
Qed.

(** An escaped high surrogate is read back on its own when no escaped
    low surrogate follows. *)
Lemma scanstring_high_single (n : nat) (c : char) (tail : str) :
  is_high_surrogate c = true -> no_low_escape tail ->
  scanstring (S n) (u_escape c ++ tail)
  = pbind (scanstring n tail) (fun t => ret (c :: fst t, snd t)).
Proof.
  intros Hhigh Htail.
  assert (Hc : (c < 65536)%N).
  { unfold is_high_surrogate in Hhigh. apply andb_true_iff in Hhigh as [_ H2].
    apply N.leb_le in H2. lia. }
  unfold u_escape. cbn [app scanstring].
  change (N.eqb BACKSLASH QUOTE) with false.
  change (N.eqb BACKSLASH BACKSLASH) with true.
  change (N.eqb 117 117) with true. cbv iota.
  rewrite (decode_hex4 _ _ Hc). cbn [pbind ret]. rewrite Hhigh.
  destruct tail as [|b [|u s4]]; try reflexivity.
  destruct (N.eqb_spec b BACKSLASH) as [->|Hb]; cbn [andb]; [|reflexivity].
  destruct (N.eqb_spec u 117) as [->|Hu]; [|reflexivity].
  destruct (Htail s4 eq_refl) as (u2 & r & -> & Hlow).
  cbn [pbind ret]. now rewrite Hlow.
Qed.

Lemma no_low_escape_quote (rest : str) : no_low_escape (QUOTE :: rest).
Proof. intros s4 E. discriminate E. Qed.

Lemma no_low_escape_char (c : char) (tail : str) :
  code_point c -> is_low_surrogate c = false ->
  no_low_escape (escape_char c ++ tail).
Proof.
  intros Hcp Hlow s4. unfold escape_char.
  destruct (N.eqb_spec c QUOTE) as [->|Hq]; [intros E; discriminate E|].
  destruct (N.eqb_spec c BACKSLASH) as [->|Hb]; [intros E; discriminate E|].
  destruct (N.eqb_spec c 8) as [->|H8]; [intros E; discriminate E|].
  destruct (N.eqb_spec c 12) as [->|H12]; [intros E; discriminate E|].
  destruct (N.eqb_spec c 10) as [->|H10]; [intros E; discriminate E|].
  destruct (N.eqb_spec c 13) as [->|H13]; [intros E; discriminate E|].
  destruct (N.eqb_spec c 9) as [->|H9]; [intros E; discriminate E|].
  destruct ((32 <=? c)%N && (c <=? 126)%N).
  - cbn [app]. intros E. injection E as E _. congruence.
  - destruct (N.ltb_spec c 65536) as [Hbmp|Hbmp].
    + unfold u_escape. cbn [app]. intros E.
      assert (E' : s4 = hex4 c ++ tail) by congruence.
      rewrite E'. exists c, tail. split; [now apply decode_hex4|exact Hlow].
    + assert (Hc : (65536 <= c < 1114112)%N) by (unfold code_point in Hcp; lia).
      destruct (surrogate_pair c Hc) as (-> & -> & Hq1).
      generalize dependent ((c - 65536) / 1024)%N. intros q Hq1.
      unfold u_escape at 1. rewrite <- app_assoc. cbn [app].
      intros E.
      assert (E' : s4 = hex4 (55296 + q)
                          ++ u_escape (56320 + (c - 65536) mod 1024) ++ tail)
        by congruence.
      rewrite E'. exists (55296 + q)%N. eexists.
      split; [apply decode_hex4; lia|].
      unfold is_low_surrogate. apply andb_false_iff. left.
      apply N.leb_gt. lia.
Qed.

Lemma not_high_char_ok (c : char) :
  code_point c -> is_high_surrogate c = false -> char_ok c.
Proof.
  unfold code_point, is_high_surrogate, char_ok. intros Hcp H.
  apply andb_false_iff in H as [H|H].
  - apply N.leb_gt in H. now left.
  - apply N.leb_gt in H. right. lia.
Qed.

(** A string is read back from its encoding, up to the closing quote. *)
Lemma scanstring_encoded (s : str) :
  forall (n : nat) (rest : str),
    text_ok s -> (List.length s < n)%nat ->
    scanstring n (flat_map escape_char s ++ QUOTE :: rest) = ret (s, rest).
Proof.
  induction s as [|c s IH]; intros n rest Hok Hn;
    destruct n as [|n]; try (exfalso; cbn in Hn; lia).
  - reflexivity.
  - destruct Hok as (Hcp & Hnext & Hs).
    cbn [flat_map]. rewrite <- app_assoc.
    destruct (is_high_surrogate c) eqn:Hhigh.
    + rewrite (escape_char_high c Hhigh).
      rewrite scanstring_high_single; [|exact Hhigh|].
      * rewrite IH by (try assumption; cbn in Hn; lia). reflexivity.
      * destruct s as [|l s']; [apply no_low_escape_quote|].
        cbn [flat_map]. rewrite <- app_assoc.
        apply no_low_escape_char; [apply Hs|now apply Hnext].
    + rewrite scanstring_escape_char by now apply not_high_char_ok.
      rewrite IH by (try assumption; cbn in Hn; lia). reflexivity.
Qed.

Lemma join_cons (sep a : str) (l : list str) :
  join sep (a :: l) = a ++ flat_map (fun y => sep ++ y) l.
Proof.
  revert a. induction l as [|b l IH]; intros a.
  - cbn. now rewrite app_nil_r.
  - change (join sep (a :: b :: l)) with (a ++ sep ++ join sep (b :: l)).
    rewrite IH. cbn [flat_map]. now rewrite <- app_assoc.
Qed.

Lemma skip_ws_stop (c : char) (t : str) :
  is_ws c = false -> skip_ws (c :: t) = c :: t.
Proof. intros H. cbn [skip_ws]. now rewrite H. Qed.

Lemma skip_ws_skip (c : char) (t : str) :
  is_ws c = true -> skip_ws (c :: t) = skip_ws t.
Proof. intros H. cbn [skip_ws]. now rewrite H. Qed.

Lemma skip_ws_spaces (k : nat) (t : str) :
  skip_ws (repeat SPACE k ++ t) = skip_ws t.
Proof. induction k as [|k IH]; [reflexivity|exact IH]. Qed.

Lemma dict_of_pairs_app (l d : list (str * value)) :
  NoDup (dict_keys (d ++ l)) ->
  fold_left (fun d kv => dict_setitem d (fst kv) (snd kv)) l d = d ++ l.
Proof.
  revert d. induction l as [|[k v] l IH]; intros d ND.
  - now rewrite app_nil_r.
  - cbn [fold_left fst snd].
    assert (Hfresh : ~ In k (dict_keys d)).
    { unfold dict_keys in ND. rewrite map_app in ND. cbn [List.map fst] in ND.
      apply NoDup_remove_2 in ND. intros Hin. apply ND.
      apply in_or_app. now left. }
    replace (dict_setitem d k v) with (d ++ [(k, v)]).
    + rewrite IH; rewrite <- app_assoc; [reflexivity|exact ND].
    + rewrite <- (app_nil_r d) at 2.
      rewrite dict_setitem_app_fresh by exact Hfresh. reflexivity.
Qed.

Lemma dict_of_pairs_distinct (items : list (str * value)) :
  NoDup (List.map fst items) -> dict_of_pairs items = items.
Proof. intros ND. exact (dict_of_pairs_app items [] ND). Qed.

Section Values.

Variable indent : nat.

Local Abbreviation enc := (encode indent).
Local Abbreviation nl := (newline_indent indent).
Local Abbreviation field_of := (field_text indent).

Lemma encode_list (level : nat) (xs : list value) :
  enc level (JList xs)
  = block indent (lit "[") (lit "]") level (List.map (enc (S level)) xs).
Proof. reflexivity. Qed.

Lemma encode_dict (level : nat) (items : list (str * value)) :
  enc level (JDict items)
  = block indent (lit "{") (lit "}") level (List.map (field_of level) items).
Proof. reflexivity. Qed.

Lemma block_cons (open close : str) (level : nat) (a : str) (l : list str) :
  block indent open close level (a :: l)
  = open ++ nl (S level) ++ a
      ++ flat_map (fun y => (lit "," ++ nl (S level)) ++ y) l
      ++ nl level ++ close.
Proof. unfold block. now rewrite join_cons, <- app_assoc. Qed.

Lemma skip_ws_nl (level : nat) (t : str) : skip_ws (nl level ++ t) = skip_ws t.
Proof. unfold newline_indent. cbn [app skip_ws is_ws]. apply skip_ws_spaces. Qed.

Lemma encode_head (level : nat) (v : value) :
  exists c more,
    enc level v = c :: more /\ (c = QUOTE \/ c = 91%N \/ c = 123%N).
Proof.
  destruct v as [s|xs|items].
  - eexists. eexists. split; [reflexivity|]. now left.
  - rewrite encode_list. destruct (List.map _ xs); eexists; eexists;
      (split; [reflexivity|]); right; now left.
  - rewrite encode_dict. destruct (List.map _ items); eexists; eexists;
      (split; [reflexivity|]); right; now right.
Qed.

Lemma skip_ws_encode (level : nat) (v : value) (t : str) :
  skip_ws (enc level v ++ t) = enc level v ++ t.
Proof.
  destruct (encode_head level v) as (c & more & E & Hc). rewrite E.
  destruct Hc as [Hc|[Hc|Hc]]; subst c; reflexivity.
Qed.

Lemma scan_once_string (n : nat) (s rest : str) :
  text_ok s ->
  scan_once (S n) (encode_string s ++ rest) = ret (JStr s, rest).
Proof.
  intros Hok. unfold encode_string. cbn [app scan_once].
  change (N.eqb QUOTE QUOTE) with true. cbv iota.
  rewrite <- app_assoc. cbn [app].
  rewrite scanstring_encoded; [reflexivity|exact Hok|].
  rewrite length_app. cbn [List.length]. pose proof (escape_length s). lia.
Qed.

Lemma scan_once_open_list (n : nat) (t : str) (c : char) (t' : str) :
  skip_ws t = c :: t' -> N.eqb c 93 = false ->
  scan_once (S n) (91%N :: t) = array_loop n (c :: t') [].
Proof.
  intros Ht Hc. cbn [scan_once].
  change (N.eqb 91 QUOTE) with false. change (N.eqb 91 91) with true.
  cbv iota. now rewrite Ht, Hc.
Qed.

Lemma scan_once_open_dict (n : nat) (t t' : str) :
  skip_ws t = QUOTE :: t' ->
  scan_once (S n) (123%N :: t) = object_loop n t' [].
Proof.
  intros Ht. cbn [scan_once].
  change (N.eqb 123 QUOTE) with false. change (N.eqb 123 91) with false.
  change (N.eqb 123 123) with true. cbv iota. rewrite Ht.
  change (N.eqb QUOTE 125) with false. change (N.eqb QUOTE QUOTE) with true.
  reflexivity.
Qed.

Lemma array_loop_step (n : nat) (s : str) (acc : list value) :
  array_loop (S n) s acc
  = pbind (scan_once n s) (fun r =>
      let (v, s1) := r in
      match skip_ws s1 with
      | [] => fail Malformed
      | c :: s2 =>
          if N.eqb c 93 then ret (JList (rev (v :: acc)), s2)
          else if N.eqb c 44 then array_loop n (skip_ws s2) (v :: acc)
          else fail Malformed
      end).
Proof. reflexivity. Qed.

Lemma object_loop_step (n : nat) (s : str) (acc : list (str * value)) :
  object_loop (S n) s acc
  = pbind (scanstring (List.length s) s) (fun r =>
      let (key, s1) := r in
      match skip_ws s1 with
      | [] => fail Malformed
      | c :: s2 =>
          if N.eqb c 58 then
            pbind (scan_once n (skip_ws s2)) (fun r2 =>
              let (v, s3) := r2 in
              match skip_ws s3 with
              | [] => fail Malformed
              | c3 :: s4 =>
                  if N.eqb c3 125 then
                    ret (JDict (dict_of_pairs (rev ((key, v) :: acc))), s4)
                  else if N.eqb c3 44 then
                    match skip_ws s4 with
                    | [] => fail Malformed
                    | c5 :: s6 =>
                        if N.eqb c5 QUOTE then object_loop n s6 ((key, v) :: acc)
                        else fail Malformed
                    end
                  else fail Malformed
              end)
          else fail Malformed
      end).
Proof. reflexivity. Qed.

Section Loops.

(** The loops read their items back as long as [scan_once] does so below
    some bound. *)
Variable bound : nat.
Hypothesis scan_below :
  forall m v level rest,
    (m < bound)%nat -> wf v -> (size v <= m)%nat ->
    scan_once m (enc level v ++ rest) = ret (v, rest).

Lemma array_items (level : nat) (xs : list value) :
  forall (x : value) (acc : list value) (m : nat) (rest : str),
    (m <= bound)%nat -> wf x -> Forall wf xs ->
    (weight (x :: xs) <= m)%nat ->
    array_loop m
      (enc (S level) x
         ++ flat_map (fun y => (lit "," ++ nl (S level)) ++ y)
                     (List.map (enc (S level)) xs)
         ++ nl level ++ lit "]" ++ rest) acc
    = ret (JList (rev acc ++ x :: xs), rest).
Proof.
  induction xs as [|y ys IH]; intros x acc m rest Hm Hx Hxs Hw;
    (destruct m as [|m]; [cbn in Hw; lia|]);
    rewrite array_loop_step;
    rewrite scan_below by (try assumption; unfold weight in Hw; cbn in Hw; lia);
    cbn [pbind ret].
  - cbn [List.map flat_map app]. rewrite skip_ws_nl. reflexivity.
  - inversion Hxs as [|? ? Hy Hys]; subst.
    cbn [List.map flat_map]. rewrite <- !app_assoc.
    change (lit ",") with [44%N] at 1.
    cbn [app]. rewrite skip_ws_stop by reflexivity.
    change (N.eqb 44 93) with false.
    change (N.eqb 44 44) with true. cbv iota.
    rewrite skip_ws_nl, skip_ws_encode.
    rewrite IH; try assumption.
    + cbn [rev]. now rewrite <- app_assoc.
    + lia.
    + unfold weight in *. cbn in Hw |- *. lia.
Qed.

Lemma object_items (level : nat) (more : list (str * value)) :
  forall (k : str) (v : value) (acc : list (str * value)) (m : nat) (rest : str),
    (m <= bound)%nat -> text_ok k -> wf v ->
    Forall (fun kv => text_ok (fst kv) /\ wf (snd kv)) more ->
    (fields_weight ((k, v) :: more) <= m)%nat ->
    object_loop m
      (flat_map escape_char k ++ QUOTE :: lit ": " ++ enc (S level) v
         ++ flat_map (fun y => (lit "," ++ nl (S level)) ++ y)
                     (List.map (field_of level) more)
         ++ nl level ++ lit "}" ++ rest) acc
    = ret (JDict (dict_of_pairs (rev acc ++ (k, v) :: more)), rest).
Proof.
  induction more as [|[k' v'] more IH]; intros k v acc m rest Hm Hk Hv Hmore Hw;
    (destruct m as [|m]; [cbn in Hw; lia|]);
    rewrite object_loop_step;
    (rewrite scanstring_encoded;
     [|exact Hk
      |rewrite length_app; cbn [List.length]; pose proof (escape_length k); lia]);
    change (lit ": ") with [58%N; 32%N];
    cbn [pbind ret app];
    rewrite skip_ws_stop by reflexivity;
    change (N.eqb 58 58) with true; cbv iota;
    rewrite skip_ws_skip by reflexivity;
    rewrite skip_ws_encode;
    rewrite scan_below by (try assumption; unfold fields_weight in Hw; cbn in Hw; lia);
    cbn [pbind ret].
  - cbn [List.map flat_map app]. rewrite skip_ws_nl. reflexivity.
  - inversion Hmore as [|? ? [Hk' Hv'] Hmore']; subst. cbn [fst snd] in *.
    cbn [List.map flat_map]. rewrite <- !app_assoc.
    change (lit ",") with [44%N] at 1.
    cbn [app]. rewrite skip_ws_stop by reflexivity.
    change (N.eqb 44 125) with false.
    change (N.eqb 44 44) with true. cbv iota.
    rewrite skip_ws_nl. unfold field_text at 1. cbn [fst snd].
    unfold encode_string. rewrite <- !app_assoc.
    cbn [app]. rewrite skip_ws_stop by reflexivity.
    change (N.eqb QUOTE QUOTE) with true. cbv iota.
    rewrite <- app_assoc. cbn [app].
    rewrite IH; try assumption.
    + cbn [rev]. now rewrite <- app_assoc.
    + lia.
    + unfold fields_weight in *. cbn in Hw |- *. lia.
Qed.

End Loops.

(** Any well-formed document is read back from its encoding, given fuel
    for its size. *)
Lemma scan_once_encode (fuel : nat) :
  forall (v : value) (level : nat) (rest : str),
    wf v -> (size v <= fuel)%nat ->
    scan_once fuel (enc level v ++ rest) = ret (v, rest).
Proof.
  induction fuel as [fuel IH] using lt_wf_ind.
  intros v level rest Hwf Hsize.
  destruct fuel as [|fuel]; [destruct v; cbn in Hsize; lia|].
  assert (Hbelow : forall m v level rest,
             (m < S fuel)%nat -> wf v -> (size v <= m)%nat ->
             scan_once m (enc level v ++ rest) = ret (v, rest)).
  { intros m v0 level0 rest0 Hm. apply IH. exact Hm. }
  inversion Hwf as [s Hs|xs Hxs|items Hnd Hitems]; subst.
  - apply scan_once_string. exact Hs.
  - destruct xs as [|x xs].
    + reflexivity.
    + inversion Hxs as [|? ? Hx Hxs']; subst.
      rewrite encode_list. cbn [List.map]. rewrite block_cons.
      change (lit "[") with [91%N]. rewrite <- !app_assoc. cbn [app].
      destruct (encode_head (S level) x) as (c & more & E & Hc).
      rewrite (scan_once_open_list fuel _ c
                 (more ++ flat_map (fun y => (lit "," ++ nl (S level)) ++ y)
                                   (List.map (enc (S level)) xs)
                       ++ nl level ++ lit "]" ++ rest)).
      * change (c :: more ++ ?t) with ((c :: more) ++ t). rewrite <- E.
        rewrite (array_items (S fuel) Hbelow); try assumption.
        -- reflexivity.
        -- lia.
        -- cbn in Hsize. unfold weight. cbn. lia.
      * rewrite skip_ws_nl, skip_ws_encode, E. reflexivity.
      * destruct Hc as [-> | [-> | ->]]; reflexivity.
  - destruct items as [|[k v] items].
    + reflexivity.
    + inversion Hitems as [|? ? [Hk Hv] Hitems']; subst. cbn [fst snd] in *.
      rewrite encode_dict. cbn [List.map]. rewrite block_cons.
      change (lit "{") with [123%N]. rewrite <- !app_assoc. cbn [app].
      unfold field_text at 1. cbn [fst snd]. unfold encode_string.
      rewrite <- !app_assoc. cbn [app].
      rewrite (scan_once_open_dict fuel _
                 (flat_map escape_char k ++ QUOTE :: lit ": " ++ enc (S level) v
                    ++ flat_map (fun y => (lit "," ++ nl (S level)) ++ y)
                                (List.map (field_of level) items)
                    ++ nl level ++ lit "}" ++ rest)).
      * rewrite (object_items (S fuel) Hbelow); try assumption.
        -- cbn [rev app]. now rewrite dict_of_pairs_distinct.
        -- lia.
        -- cbn in Hsize. unfold fields_weight. cbn. lia.
      * rewrite skip_ws_nl, skip_ws_stop by reflexivity.
        rewrite <- app_assoc. reflexivity.
Qed.

Lemma weight_cons (x : value) (xs : list value) :
  weight (x :: xs) = S (size x + weight xs).
Proof. reflexivity. Qed.

Lemma fields_weight_cons (kv : str * value) (items : list (str * value)) :
  fields_weight (kv :: items) = S (size (snd kv) + fields_weight items).
Proof. reflexivity. Qed.

Lemma encode_string_length (s : str) :
  (1 <= List.length (encode_string s))%nat.
Proof. unfold encode_string. cbn [List.length]. lia. Qed.

Lemma separated_length (sep : str) (f : value -> str) (xs : list value) :
  (1 <= List.length sep)%nat ->
  Forall (fun x => size x <= List.length (f x))%nat xs ->
  (weight xs
   <= List.length (flat_map (fun y => sep ++ y) (List.map f xs)))%nat.
Proof.
  intros Hsep H. induction H as [|x xs Hx _ IH]; [reflexivity|].
  rewrite weight_cons. cbn [List.map flat_map].
  rewrite !length_app. lia.
Qed.

Lemma separated_fields_length (sep : str)
      (f : value -> str) (items : list (str * value)) :
  (1 <= List.length sep)%nat ->
  Forall (fun kv => size (snd kv) <= List.length (f (snd kv)))%nat items ->
  (fields_weight items
   <= List.length
        (flat_map (fun y => sep ++ y)
           (List.map (fun kv => encode_string (fst kv) ++ lit ": " ++ f (snd kv))
                     items)))%nat.
Proof.
  intros Hsep H. induction H as [|kv items Hkv _ IH]; [reflexivity|].
  rewrite fields_weight_cons. cbn [List.map flat_map].
  rewrite !length_app. lia.
Qed.

Lemma weight_member (xs : list value) (x : value) :
  In x xs -> (S (size x) <= weight xs)%nat.
Proof.
  induction xs as [|y ys IH]; intros Hin; [contradiction|].
  rewrite weight_cons. destruct Hin as [->|Hin]; [lia|].
  specialize (IH Hin). lia.
Qed.

Lemma fields_weight_member (items : list (str * value)) (kv : str * value) :
  In kv items -> (S (size (snd kv)) <= fields_weight items)%nat.
Proof.
  induction items as [|y ys IH]; intros Hin; [contradiction|].
  rewrite fields_weight_cons. destruct Hin as [->|Hin]; [lia|].
  specialize (IH Hin). lia.
Qed.

(** A document has at most as many values as its encoding has
    characters. *)
Lemma size_le_length (n : nat) :
  forall (v : value) (level : nat),
    (size v <= n)%nat -> (size v <= List.length (enc level v))%nat.
Proof.
  induction n as [|n IH]; intros v level Hn;
    [destruct v; cbn in Hn; lia|].
  destruct v as [s|xs|items].
  - cbn [size encode]. apply encode_string_length.
  - rewrite encode_list. cbn [size] in *. fold (weight xs) in *.
    assert (Hall : Forall (fun x => size x <= List.length (enc (S level) x))%nat xs).
    { apply Forall_forall. intros x Hx. apply IH.
      pose proof (weight_member xs x Hx). lia. }
    destruct xs as [|x xs]; [cbn; lia|].
    inversion Hall as [|? ? Hx Hxs]; subst.
    cbn [List.map]. rewrite block_cons. rewrite !length_app.
    pose proof (separated_length (lit "," ++ nl (S level)) (enc (S level)) xs
                  ltac:(cbn; lia) Hxs) as Hsep.
    rewrite weight_cons.
    change (List.length (lit "[")) with 1%nat.
    change (List.length (lit "]")) with 1%nat.
    unfold newline_indent at 1 3. cbn [List.length]. lia.
  - rewrite encode_dict. cbn [size] in *. fold (fields_weight items) in *.
    assert (Hall : Forall (fun kv => size (snd kv)
                                     <= List.length (enc (S level) (snd kv)))%nat
                          items).
    { apply Forall_forall. intros kv Hkv. apply IH.
      pose proof (fields_weight_member items kv Hkv). lia. }
    destruct items as [|[k v] items]; [cbn; lia|].
    inversion Hall as [|? ? Hkv Hrest]; subst. cbn [snd] in Hkv.
    cbn [List.map]. rewrite block_cons. rewrite !length_app.
    pose proof (separated_fields_length (lit "," ++ nl (S level))
                  (enc (S level)) items ltac:(cbn; lia) Hrest) as Hsep.
    rewrite fields_weight_cons. cbn [snd].
    change (List.length (lit "{")) with 1%nat.
    change (List.length (lit "}")) with 1%nat.
    unfold field_text at 1. cbn [fst snd]. rewrite !length_app.
    unfold newline_indent at 1 3. cbn [List.length].
    change (List.map (field_of level) items)
      with (List.map (fun kv => encode_string (fst kv) ++ lit ": "
                                  ++ enc (S level) (snd kv)) items).
    lia.
Qed.

(** [loads] undoes [dumps] on well-formed documents, whatever the
    indentation and with any whitespace after the document. *)
Lemma loads_dumps (v : value) (trailing : str) :
  wf v -> skip_ws trailing = [] ->
  loads (dumps indent v ++ trailing) = ret v.
Proof.
  intros Hwf Hws. unfold loads, dumps.
  rewrite skip_ws_encode.
  rewrite scan_once_encode.
  - cbn [pbind ret fst snd]. now rewrite Hws.
  - exact Hwf.
  - pose proof (size_le_length (size v) v 0 (le_n _)).
    rewrite length_app. lia.
Qed.

End Values.

End JsonFacts.

(* ================================================================= *)
(** ** The text of a proposal *)

Section TextFacts.

Lemma text_okb_ok (s : str) : text_okb s = true -> text_ok s.
Proof.
  induction s as [|c t IH]; [easy|].
  cbn [text_okb text_ok]. intros H.
  apply andb_true_iff in H as [H Ht]. apply andb_true_iff in H as [Hc Hn].
  split; [now apply N.ltb_lt|]. split; [|now apply IH].
  intros Hhigh. rewrite Hhigh in Hn. cbn [negb orb] in Hn.
  destruct t as [|l t']; [exact I|]. now apply negb_true_iff.
Qed.

Lemma plainb_ok (s : str) : plainb s = true -> plain s.
Proof.
  intros H. apply Forall_forall. intros c Hc.
  unfold plainb in H. rewrite forallb_forall in H. now apply N.ltb_lt, H.
Qed.

Lemma plain_not_high (c : char) :
  (c < 55296)%N -> Json.is_high_surrogate c = true -> False.
Proof.
  unfold Json.is_high_surrogate. intros Hc H.
  apply andb_true_iff in H as [H _]. apply N.leb_le in H. lia.
Qed.

Lemma plain_not_low (c : char) :
  (c < 55296)%N -> Json.is_low_surrogate c = false.
Proof.
  intros Hc. unfold Json.is_low_surrogate. apply andb_false_iff. left.
  apply N.leb_gt. lia.
Qed.

Lemma plain_lit (s : string) : plain (lit s).
Proof.
  apply Forall_forall. intros c Hc. unfold lit in Hc.
  apply in_map_iff in Hc as (a & <- & _).
  pose proof (N_ascii_bounded a). lia.
Qed.

Lemma plain_app (a b : str) : plain a -> plain b -> plain (a ++ b).
Proof. intros Ha Hb. apply Forall_app. now split. Qed.

Lemma plain_digits_from (fuel : nat) :
  forall (n : N) (acc : str), plain acc -> plain (digits_from fuel n acc).
Proof.
  induction fuel as [|fuel IH]; intros n acc Hacc; [exact Hacc|].
  rewrite digits_from_step. cbv zeta.
  assert (Hd : plain ((48 + n mod 10)%N :: acc)).
  { constructor; [|exact Hacc].
    pose proof (N.mod_lt n 10 ltac:(discriminate)). lia. }
  destruct (n <? 10)%N; [exact Hd|]. apply IH. exact Hd.
Qed.

Lemma plain_format_f0 (x : float) : plain (format_f0 x).
Proof.
  destruct x as [s|s| |s m e]; cbn [format_f0];
    repeat apply plain_app; try apply plain_lit;
    try (destruct s; [apply plain_lit|constructor]).
  apply plain_digits_from. constructor.
Qed.

(** Plain text around a text keeps it readable: the program's own
    wording never completes a surrogate pair. *)
Lemma text_ok_plain (s : str) : plain s -> text_ok s.
Proof.
  intros H. induction H as [|c t Hc _ IH]; [exact I|].
  cbn [text_ok]. split; [unfold code_point; lia|]. split; [|exact IH].
  intros Hhigh. destruct (plain_not_high c Hc Hhigh).
Qed.

Lemma text_ok_lit (s : string) : text_ok (lit s).
Proof. apply text_ok_plain, plain_lit. Qed.

Lemma text_ok_after_plain (p s : str) :
  plain p -> text_ok s -> text_ok (p ++ s).
Proof.
  intros Hp Hs. induction Hp as [|c t Hc _ IH]; [exact Hs|].
  cbn [app text_ok]. split; [unfold code_point; lia|]. split; [|exact IH].
  intros Hhigh. destruct (plain_not_high c Hc Hhigh).
Qed.

Lemma text_ok_before_plain (s p : str) :
  text_ok s -> plain p -> text_ok (s ++ p).
Proof.
  intros Hs Hp. induction s as [|c t IH]; [now apply text_ok_plain|].
  destruct Hs as (Hcp & Hnext & Ht).
  cbn [app text_ok]. split; [exact Hcp|]. split; [|now apply IH].
  intros Hhigh. specialize (Hnext Hhigh).
  destruct t as [|l t']; [|exact Hnext].
  cbn [app]. destruct Hp as [|x p' Hx _]; [exact I|]. now apply plain_not_low.
Qed.

Lemma text_ok_between (a sep b : str) :
  text_ok a -> plain sep -> sep <> [] -> text_ok b ->
  text_ok (a ++ sep ++ b).
Proof.
  intros Ha Hsep Hne Hb. induction a as [|c t IH].
  - cbn [app]. apply text_ok_after_plain; assumption.
  - destruct Ha as (Hcp & Hnext & Ht).
    cbn [app text_ok]. split; [exact Hcp|]. split; [|now apply IH].
    intros Hhigh. specialize (Hnext Hhigh).
    destruct t as [|l t']; [|exact Hnext].
    cbn [app]. destruct sep as [|x p']; [congruence|].
    cbn [app]. apply plain_not_low. now inversion Hsep.
Qed.

Lemma text_ok_join (sep : str) (xs : list str) :
  plain sep -> sep <> [] -> Forall text_ok xs -> text_ok (join sep xs).
Proof.
  intros Hsep Hne H. induction H as [|x xs Hx Hxs IH]; [exact I|].
  rewrite JsonFacts.join_cons.
  destruct xs as [|y ys]; [cbn [flat_map]; now rewrite app_nil_r|].
  rewrite JsonFacts.join_cons in IH.
  cbn [flat_map]. rewrite <- app_assoc.
  now apply text_ok_between.
Qed.

Lemma text_ok_site_strategy (plot : PlotDetails) :
  text_ok (slope plot) -> text_ok (climate plot) -> text_ok (orientation plot) ->
  Forall text_ok (site_strategy plot).
Proof.
  intros Hs Hc Ho. unfold site_strategy.
  constructor; [|constructor; [|constructor; [|constructor; [|constructor]]]].
  - apply text_ok_plain. repeat apply plain_app;
      try apply plain_lit; try apply plain_format_f0.
    apply plainb_ok. reflexivity.
  - apply text_ok_after_plain; [apply plain_lit|].
    apply text_ok_before_plain; [exact Ho|apply plain_lit].
  - apply text_ok_after_plain; [apply plain_lit|].
    apply text_ok_before_plain; [exact Hs|apply plain_lit].
  - apply text_ok_after_plain; [apply plain_lit|].
    apply text_ok_before_plain; [exact Hc|apply plain_lit].
Qed.

Lemma text_ok_room_planning_notes (rooms : list str) :
  Forall text_ok rooms -> Forall text_ok (room_planning_notes rooms).
Proof.
  intros H. unfold room_planning_notes.
  constructor; [|constructor; [|constructor; [|constructor]]];
    try apply text_ok_lit.
  apply text_ok_after_plain; [apply plain_lit|].
  apply text_ok_before_plain; [|apply plain_lit].
  apply text_ok_join; [apply plain_lit|discriminate|exact H].
Qed.

Lemma text_ok_packages :
  forall style package name items,
    In (style, package) STYLE_PACKAGES -> In (name, items) package ->
    Forall text_ok items.
Proof.
  assert (H : forallb (fun sp =>
                forallb (fun ni => forallb plainb (snd ni)) (snd sp))
              STYLE_PACKAGES = true) by (vm_compute; reflexivity).
  intros style package name items Hs Hn.
  rewrite forallb_forall in H. specialize (H _ Hs). cbn [snd] in H.
  rewrite forallb_forall in H. specialize (H _ Hn). cbn [snd] in H.
  rewrite forallb_forall in H.
  apply Forall_forall. intros s Hin. apply text_ok_plain, plainb_ok. now apply H.
Qed.

Lemma dict_get_Some_In {V} (d : dict V) (k : str) (v : V) :
  dict_get d k = Some v -> In (k, v) d.
Proof.
  induction d as [|[k' v'] d IH]; cbn [dict_get]; [discriminate|].
  destruct (str_eq_dec k' k) as [->|_].
  - intros H. inversion H. now left.
  - intros H. right. now apply IH.
Qed.

Lemma dict_getitem_In {V} (d : dict V) (k : str) (v : V) :
  dict_getitem d k = Ok v -> In (k, v) d.
Proof.
  unfold dict_getitem. intros H. apply dict_get_Some_In.
  destruct (dict_get d k); [|discriminate]. now injection H as ->.
Qed.

End TextFacts.

Section StructuredOutput.

Import Json JsonSpec JsonFacts.

Lemma all_some_strings (xs : list str) :
  all_some (List.map as_str (List.map JStr xs)) = Some xs.
Proof.
  induction xs as [|x xs IH]; [reflexivity|].
  cbn [List.map as_str all_some]. now rewrite IH.
Qed.

Lemma proposal_of_json_asdict (p : DesignProposal) :
  proposal_of_json (asdict p) = Some p.
Proof.
  destruct p as [st co ex it fe si ro].
  unfold proposal_of_json, asdict.
  cbn [selected_style style_confidence exterior_finishes interior_finishes
       suggested_features site_strategy_notes room_planning].
  change (field as_str _ "selected_style") with (as_str (JStr st)).
  change (field as_str _ "style_confidence") with (as_str (JStr co)).
  change (field as_str_list _ "exterior_finishes")
    with (as_str_list (JList (List.map JStr ex))).
  change (field as_str_list _ "interior_finishes")
    with (as_str_list (JList (List.map JStr it))).
  change (field as_str_list _ "suggested_features")
    with (as_str_list (JList (List.map JStr fe))).
  change (field as_str_list _ "site_strategy")
    with (as_str_list (JList (List.map JStr si))).
  change (field as_str_list _ "room_planning_notes")
    with (as_str_list (JList (List.map JStr ro))).
  cbn [as_str as_str_list]. rewrite !all_some_strings. reflexivity.
Qed.

Lemma wf_strings (xs : list str) :
  Forall text_ok xs -> wf (JList (List.map JStr xs)).
Proof.
  intros H. constructor. induction H; constructor; [now constructor|assumption].
Qed.

Lemma asdict_wf (p : DesignProposal) :
  text_ok (selected_style p) -> text_ok (style_confidence p) ->
  Forall text_ok (exterior_finishes p) -> Forall text_ok (interior_finishes p) ->
  Forall text_ok (suggested_features p) ->
  Forall text_ok (site_strategy_notes p) -> Forall text_ok (room_planning p) ->
  wf (asdict p).
Proof.
  intros H1 H2 H3 H4 H5 H6 H7. unfold asdict. constructor.
  - vm_compute. repeat (constructor; [simpl; intuition discriminate|]).
    constructor.
  - repeat (constructor; [cbn [fst snd]; split;
                          [apply text_ok_lit
                          |first [now constructor | now apply wf_strings]]|]).
    constructor.
Qed.

Lemma encode_strings (indent level : nat) (x : str) (xs : list str) :
  encode indent level (JList (JStr x :: List.map JStr xs))
  = lit "[" ++ newline_indent indent (S level)
      ++ join (lit "," ++ newline_indent indent (S level))
              (List.map encode_string (x :: xs))
      ++ newline_indent indent level ++ lit "]".
Proof.
  change (JStr x :: List.map JStr xs) with (List.map JStr (x :: xs)).
  rewrite encode_list, map_map. reflexivity.
Qed.

Lemma dumps_layout (p : DesignProposal) :
  exterior_finishes p <> [] -> interior_finishes p <> [] ->
  suggested_features p <> [] -> site_strategy_notes p <> [] ->
  room_planning p <> [] ->
  dumps 2 (asdict p) = proposal_layout p.
Proof.
  destruct p as [st co ex it fe si ro].
  cbn [selected_style style_confidence exterior_finishes interior_finishes
       suggested_features site_strategy_notes room_planning].
  intros H1 H2 H3 H4 H5.
  destruct ex as [|e0 ex]; [congruence|]. destruct it as [|i0 it]; [congruence|].
  destruct fe as [|f0 fe]; [congruence|]. destruct si as [|s0 si]; [congruence|].
  destruct ro as [|r0 ro]; [congruence|].
  unfold dumps, asdict, proposal_layout, string_field, list_field.
  cbn [selected_style style_confidence exterior_finishes interior_finishes
       suggested_features site_strategy_notes room_planning].
  rewrite encode_dict. cbn [List.map]. unfold field_text. cbn [fst snd].
  rewrite !encode_strings.
  reflexivity.
Qed.

End StructuredOutput.

Section StructuredOutputClaim.

Variable lower : str -> str.
Variable pretty_print : DesignProposal -> str.

Lemma proposal_wf (inputs : UserInputs) (p : DesignProposal) :
  inputs_text_ok inputs ->
  propose lower inputs = Ok p ->
  JsonSpec.wf (asdict p)
  /\ exterior_finishes p <> [] /\ interior_finishes p <> []
  /\ suggested_features p <> [] /\ site_strategy_notes p <> []
  /\ room_planning p <> [].
Proof.
  intros (Hrooms & Hslope & Hclimate & Horient) Hp.
  destruct (propose_closed lower inputs) as
    (style & e & i & f & Hin & _ & Hpkg & He & Hi & Hf & Hq).
  rewrite Hq in Hp. inversion Hp; subst p; clear Hp.
  cbn [selected_style style_confidence exterior_finishes interior_finishes
       suggested_features site_strategy_notes room_planning].
  assert (Hpk : In (style, [ (lit "exterior", e); (lit "interior", i);
                             (lit "features", f) ]) STYLE_PACKAGES).
  { apply dict_getitem_In. exact Hpkg. }
  split; [|repeat split; try discriminate;
           intros ->; discriminate].
  apply asdict_wf;
    cbn [selected_style style_confidence exterior_finishes interior_finishes
         suggested_features site_strategy_notes room_planning].
  - repeat (destruct Hin as [<-|Hin]; [apply text_ok_lit|]). contradiction.
  - destruct (image_descriptions inputs); apply text_ok_lit.
  - apply (text_ok_packages _ _ (lit "exterior") e Hpk). now left.
  - apply (text_ok_packages _ _ (lit "interior") i Hpk). right. now left.
  - apply (text_ok_packages _ _ (lit "features") f Hpk). right. right. now left.
  - apply text_ok_site_strategy; assumption.
  - apply text_ok_room_planning_notes. exact Hrooms.
Qed.

(** C8, as amended: for inputs whose room, slope, climate and orientation
    strings nowhere hold a high surrogate directly followed by a low
    surrogate as two code points, the structured output of the proposal
    is the record with its seven fields in declaration order, one per
    line at two spaces of indentation (list items at four); reading that
    text back gives a document with the same fields, from which the same
    record is rebuilt.  Under [--json] this text is what [main] writes. *)
Theorem C8_structured_output_round_trip (inputs : UserInputs) :
  inputs_text_ok inputs ->
  exists proposal out,
    propose lower inputs = Ok proposal
    /\ out = Json.dumps 2 (asdict proposal) ++ [Json.NEWLINE]
    /\ out = JsonSpec.proposal_layout proposal ++ [Json.NEWLINE]
    /\ Json.loads out = inl (asdict proposal)
    /\ (exists items,
           asdict proposal = Json.JDict items
           /\ dict_keys items
              = [ lit "selected_style"; lit "style_confidence";
                  lit "exterior_finishes"; lit "interior_finishes";
                  lit "suggested_features"; lit "site_strategy";
                  lit "room_planning_notes" ])
    /\ proposal_of_json (asdict proposal) = Some proposal
    /\ forall args,
         arg_json args = true -> inputs_of_args args = inputs ->
         main lower pretty_print args = Ok out.
Proof.
  intros Hinputs.
  destruct (propose_closed lower inputs) as
    (style & e & i & f & _ & _ & _ & _ & _ & _ & Hp).
  destruct (proposal_wf inputs _ Hinputs Hp) as (Hwf & H1 & H2 & H3 & H4 & H5).
  eexists. eexists. split; [exact Hp|].
  split; [reflexivity|].
  split; [now rewrite dumps_layout|].
  split; [apply JsonFacts.loads_dumps; [exact Hwf|reflexivity]|].
  split; [eexists; split; reflexivity|].
  split; [apply proposal_of_json_asdict|].
  intros args Hjson <-. unfold main. rewrite Hp. cbn [bind].
  now rewrite Hjson.
Qed.

End StructuredOutputClaim.

Lemma C8_witness :
  inputs_text_ok lone_surrogate_inputs
  /\ exists proposal out,
       propose ascii_lower lone_surrogate_inputs = Ok proposal
       /\ out = Json.dumps 2 (asdict proposal) ++ [Json.NEWLINE]
       /\ Json.loads out = inl (asdict proposal)
       /\ proposal_of_json (asdict proposal) = Some proposal.
Proof.
  assert (Hok : inputs_text_ok lone_surrogate_inputs).
  { unfold inputs_text_ok.
    repeat split; try (apply text_okb_ok; reflexivity).
    repeat constructor; apply text_okb_ok; reflexivity. }
  split; [exact Hok|].
  destruct (C8_structured_output_round_trip ascii_lower (fun _ => [])
              lone_surrogate_inputs Hok)
    as (p & out & Hp & Hout & _ & Hl & _ & Hback & _).
  exists p, out. auto.
Defined.

(** Outside [text_ok] the round trip fails: a high and a low surrogate
    standing next to each other as two code points are written as two
    escapes and read back as one code point. *)
Example split_surrogate_pair_is_joined :
  Json.loads (Json.dumps 2 (Json.JStr [55357%N; 56832%N]))
  = inl (Json.JStr [128512%N]).
Proof. vm_compute. reflexivity. Qed.

(** C8 as first stated fails: for a room name made of the two code points
    U+D83D and U+DE00 the proposal of [propose] is written and read back
    without error, but the record rebuilt from the text differs from the
    proposal in its room planning notes, whose first note then holds the
    single code point U+1F600. *)
Lemma C8_counterexample :
  exists proposal back rebuilt,
    propose ascii_lower split_pair_inputs = Ok proposal
    /\ Json.loads (Json.dumps 2 (asdict proposal) ++ [Json.NEWLINE]) = inl back
    /\ proposal_of_json back = Some rebuilt
    /\ back <> asdict proposal
    /\ rebuilt <> proposal
    /\ nth 0 (room_planning proposal) []
       = lit "Prioritize adjacency planning for: " ++ [55357%N; 56832%N]
           ++ lit "."
    /\ nth 0 (room_planning rebuilt) []
       = lit "Prioritize adjacency planning for: " ++ [128512%N] ++ lit ".".
Proof.
  destruct (propose ascii_lower split_pair_inputs) as [proposal|err] eqn:Hp;
    [|vm_compute in Hp; discriminate Hp].
  destruct (Json.loads (Json.dumps 2 (asdict proposal) ++ [Json.NEWLINE]))
    as [back|err] eqn:Hback;
    [|vm_compute in Hp; injection Hp as <-;
      vm_compute in Hback; discriminate Hback].
  destruct (proposal_of_json back) as [rebuilt|] eqn:Hrebuilt;
    [|vm_compute in Hp; injection Hp as <-;
      vm_compute in Hback; injection Hback as <-;
      vm_compute in Hrebuilt; discriminate Hrebuilt].
  exists proposal, back, rebuilt.
  assert (Hfirst : nth 0 (room_planning proposal) []
                   = lit "Prioritize adjacency planning for: "
                       ++ [55357%N; 56832%N] ++ lit ".").
  { vm_compute in Hp. injection Hp as <-. vm_compute. reflexivity. }
  assert (Hsecond : nth 0 (room_planning rebuilt) []
                    = lit "Prioritize adjacency planning for: "
                        ++ [128512%N] ++ lit ".").
  { vm_compute in Hp. injection Hp as <-.
    vm_compute in Hback. injection Hback as <-.
    vm_compute in Hrebuilt. injection Hrebuilt as <-.
    vm_compute. reflexivity. }
  assert (Hdiff : rebuilt <> proposal).
  { intros E. rewrite E, Hfirst in Hsecond. vm_compute in Hsecond.
    discriminate Hsecond. }
  repeat split; try assumption.
  intros E. apply Hdiff. rewrite E in Hrebuilt.
  rewrite proposal_of_json_asdict in Hrebuilt. now injection Hrebuilt.
Qed.

(* ================================================================= *)
(** ** Stripping and splitting *)

Section StripFacts.

Lemma lstrip_length (s : str) : (List.length (lstrip s) <= List.length s)%nat.
Proof.
  induction s as [|c s IH]; [reflexivity|].
  cbn [lstrip]. destruct (isspace c); cbn [List.length]; lia.
Qed.

Lemma lstrip_head (c : char) (s : str) :
  isspace c = false -> lstrip (c :: s) = c :: s.
Proof. intros H. cbn [lstrip]. now rewrite H. Qed.

Lemma lstrip_fixed_head (c : char) (s : str) :
  lstrip (c :: s) = c :: s -> isspace c = false.
Proof.
  cbn [lstrip]. destruct (isspace c); [|reflexivity].
  intros H. pose proof (lstrip_length s) as Hl. rewrite H in Hl.
  cbn [List.length] in Hl. lia.
Qed.

Lemma lstrip_cases (s : str) :
  lstrip s = [] \/ exists c t, lstrip s = c :: t /\ isspace c = false.
Proof.
  induction s as [|c s IH]; [now left|].
  cbn [lstrip]. destruct (isspace c) eqn:E; [exact IH|].
  right. now exists c, s.
Qed.

Lemma lstrip_idempotent (s : str) : lstrip (lstrip s) = lstrip s.
Proof.
  destruct (lstrip_cases s) as [->|(c & t & -> & Hc)]; [reflexivity|].
  now apply lstrip_head.
Qed.

Lemma lstrip_snoc (l : str) (c : char) :
  isspace c = false -> lstrip (l ++ [c]) = lstrip l ++ [c].
Proof.
  intros Hc. induction l as [|a l IH].
  - cbn [app lstrip]. now rewrite Hc.
  - cbn [app lstrip]. destruct (isspace a); [exact IH|reflexivity].
Qed.

Lemma rstrip_head (c : char) (s : str) :
  isspace c = false -> rstrip (c :: s) = c :: rstrip s.
Proof.
  intros Hc. unfold rstrip. cbn [rev].
  rewrite lstrip_snoc by exact Hc. rewrite rev_app_distr. reflexivity.
Qed.

Lemma rstrip_idempotent (s : str) : rstrip (rstrip s) = rstrip s.
Proof. unfold rstrip. now rewrite rev_involutive, lstrip_idempotent. Qed.

Lemma strip_cases (s : str) :
  strip s = []
  \/ exists c t, lstrip s = c :: t /\ isspace c = false /\ strip s = c :: rstrip t.
Proof.
  unfold strip. destruct (lstrip_cases s) as [->|(c & t & -> & Hc)].
  - now left.
  - right. exists c, t. now rewrite rstrip_head.
Qed.

Lemma strip_idempotent (s : str) : strip (strip s) = strip s.
Proof.
  destruct (strip_cases s) as [->|(c & t & _ & Hc & ->)]; [reflexivity|].
  unfold strip. rewrite lstrip_head by exact Hc.
  rewrite rstrip_head by exact Hc. now rewrite rstrip_idempotent.
Qed.

Lemma lstrip_blank (s : str) :
  lstrip s = [] <-> Forall (fun c => isspace c = true) s.
Proof.
  induction s as [|c s IH]; [split; [constructor|reflexivity]|].
  cbn [lstrip]. destruct (isspace c) eqn:E.
  - rewrite IH. split; intros H; [now constructor|now inversion H].
  - split; [discriminate|]. intros H. inversion H; congruence.
Qed.

Lemma strip_blank (s : str) :
  strip s = [] <-> Forall (fun c => isspace c = true) s.
Proof.
  rewrite <- lstrip_blank. split.
  - intros H. destruct (strip_cases s) as [_|(c & t & _ & _ & E)].
    + destruct (lstrip_cases s) as [E|(c & t & E & Hc)]; [exact E|].
      unfold strip in H. rewrite E, rstrip_head in H by exact Hc. discriminate.
    + rewrite E in H. discriminate.
  - intros H. unfold strip. now rewrite H.
Qed.

Lemma lstrip_in (s : str) (c : char) : In c (lstrip s) -> In c s.
Proof.
  induction s as [|a s IH]; [easy|].
  cbn [lstrip]. destruct (isspace a); [|easy].
  intros H. right. now apply IH.
Qed.

Lemma strip_in (s : str) (c : char) : In c (strip s) -> In c s.
Proof.
  unfold strip, rstrip. intros H.
  apply in_rev, lstrip_in, in_rev in H. now apply lstrip_in.
Qed.

Lemma lstrip_padding (pad s : str) :
  Forall (fun c => isspace c = true) pad -> lstrip (pad ++ s) = lstrip s.
Proof.
  intros H. induction H as [|c pad Hc _ IH]; [reflexivity|].
  cbn [app lstrip]. now rewrite Hc.
Qed.

Lemma strip_padding (pad s : str) :
  Forall (fun c => isspace c = true) pad -> strip (pad ++ s) = strip s.
Proof. intros H. unfold strip. now rewrite lstrip_padding. Qed.

Lemma split_char_nonempty (sep : char) (s : str) : split_char sep s <> [].
Proof.
  destruct s as [|c s]; [discriminate|].
  cbn [split_char]. destruct (N.eqb c sep); [discriminate|].
  destruct (split_char sep s); discriminate.
Qed.

Lemma split_char_no_sep (sep : char) (s : str) :
  forall seg, In seg (split_char sep s) -> ~ In sep seg.
Proof.
  induction s as [|c s IH]; intros seg Hin.
  - destruct Hin as [<-|[]]. easy.
  - cbn [split_char] in Hin. destruct (N.eqb_spec c sep) as [->|Hne].
    + destruct Hin as [<-|Hin]; [easy|now apply IH].
    + destruct (split_char sep s) as [|w ws] eqn:E.
      * destruct Hin as [<-|[]]. intros [H|[]]. congruence.
      * destruct Hin as [<-|Hin].
        -- intros [H|H]; [congruence|]. apply (IH w); [now left|exact H].
        -- apply IH. now right.
Qed.

Lemma split_char_whole (sep : char) (s : str) :
  ~ In sep s -> split_char sep s = [s].
Proof.
  induction s as [|c s IH]; intros H; [reflexivity|].
  cbn [split_char]. destruct (N.eqb_spec c sep) as [->|Hne].
  - exfalso. apply H. now left.
  - rewrite IH; [reflexivity|]. intros Hin. apply H. now right.
Qed.

(** Splitting distributes over a separator between two texts. *)
Lemma split_char_app (sep : char) (a b : str) :
  split_char sep (a ++ sep :: b) = split_char sep a ++ split_char sep b.
Proof.
  induction a as [|c a IH].
  - cbn [app split_char]. now rewrite N.eqb_refl.
  - cbn [app split_char]. rewrite IH.
    destruct (N.eqb c sep); [reflexivity|].
    pose proof (split_char_nonempty sep a).
    destruct (split_char sep a); [congruence|reflexivity].
Qed.

Lemma split_char_Forall (sep : char) (Q : char -> Prop) (s : str) :
  Forall (Forall Q) (split_char sep s) <-> Forall (fun c => c = sep \/ Q c) s.
Proof.
  induction s as [|c s IH].
  - split; intros _; repeat constructor.
  - cbn [split_char]. destruct (N.eqb_spec c sep) as [->|Hne].
    + split; intros H.
      * inversion H; subst. constructor; [now left|now apply IH].
      * inversion H; subst. constructor; [constructor|now apply IH].
    + pose proof (split_char_nonempty sep s) as Hn.
      destruct (split_char sep s) as [|w ws]; [congruence|].
      split; intros H.
      * inversion H as [|? ? Hcw Hws]; subst.
        inversion Hcw as [|? ? Hc Hw]; subst.
        constructor; [now right|]. apply IH. now constructor.
      * inversion H as [|? ? Hc Hs]; subst.
        destruct Hc as [Hc|Hc]; [congruence|].
        apply IH in Hs. inversion Hs; subst.
        constructor; [now constructor|assumption].
Qed.

End StripFacts.

(* ================================================================= *)
(** ** The comma-separated arguments *)

Section CommaList.

Lemma isspace_not_comma (c : char) : isspace c = true -> c <> COMMA.
Proof. intros H ->. discriminate H. Qed.

Lemma flat_map_nil_iff {A B} (f : A -> list B) (l : list A) :
  flat_map f l = [] <-> Forall (fun x => f x = []) l.
Proof.
  induction l as [|a l IH]; [split; [constructor|reflexivity]|].
  cbn [flat_map]. split.
  - intros H. apply app_eq_nil in H as [Ha Hl]. constructor; [exact Ha|now apply IH].
  - intros H. inversion H as [|? ? Ha Hl]; subst. rewrite Ha. now apply IH.
Qed.

Lemma comma_list_single (h : str) :
  ~ In COMMA h -> strip h <> [] -> comma_list h = [strip h].
Proof.
  intros Hc Hs. unfold comma_list. rewrite split_char_whole by exact Hc.
  cbn [flat_map]. destruct (strip h); [congruence|reflexivity].
Qed.

Lemma comma_list_clean (text : str) : Forall clean_item (comma_list text).
Proof.
  unfold comma_list. apply Forall_flat_map, Forall_forall. intros seg Hseg.
  destruct (strip seg) as [|c t] eqn:E; [constructor|].
  constructor; [|constructor]. rewrite <- E. split; [|split].
  - rewrite E. discriminate.
  - apply strip_idempotent.
  - intros Hin. apply strip_in in Hin.
    exact (split_char_no_sep COMMA text seg Hseg Hin).
Qed.

(** Every item parsed from a comma-separated argument is non-empty, has
    no whitespace left to strip and holds no comma; it is one of the
    comma-separated segments of the argument, stripped. *)
Theorem comma_list_items_clean (text : str) :
  Forall clean_item (comma_list text)
  /\ forall x, In x (comma_list text) ->
               exists seg, In seg (split_char COMMA text) /\ x = strip seg.
Proof.
  split; [apply comma_list_clean|].
  intros x Hin. unfold comma_list in Hin.
  apply in_flat_map in Hin as (seg & Hseg & Hx).
  exists seg. split; [exact Hseg|].
  destruct (strip seg); [contradiction|].
  destruct Hx as [<-|[]]. reflexivity.
Qed.

Lemma comma_list_at_comma (a b : str) :
  comma_list (a ++ COMMA :: b) = comma_list a ++ comma_list b.
Proof. unfold comma_list. now rewrite split_char_app, flat_map_app. Qed.

(** Parsing distributes over a comma: the items of [a,b] are the items
    of [a] followed by the items of [b]; a comma in front or at the end
    adds nothing. *)
Theorem comma_list_app (a b : str) :
  comma_list (a ++ COMMA :: b) = comma_list a ++ comma_list b
  /\ comma_list (COMMA :: a) = comma_list a
  /\ comma_list (a ++ [COMMA]) = comma_list a.
Proof.
  split; [apply comma_list_at_comma|]. split.
  - exact (comma_list_at_comma [] a).
  - rewrite comma_list_at_comma. apply app_nil_r.
Qed.

Lemma comma_list_joined_from (pad : str) (xs : list str) :
  Forall (fun c => isspace c = true) pad ->
  forall h : str,
    ~ In COMMA h -> strip h <> [] -> Forall clean_item xs ->
    comma_list (h ++ flat_map (fun y => (COMMA :: pad) ++ y) xs)
    = strip h :: xs.
Proof.
  intros Hpad. induction xs as [|y ys IH]; intros h Hc Hs Hxs.
  - cbn [flat_map]. rewrite app_nil_r. now apply comma_list_single.
  - inversion Hxs as [|? ? (Hy & Hys & Hyc) Hrest]; subst.
    cbn [flat_map]. rewrite <- app_assoc. cbn [app].
    rewrite comma_list_at_comma, comma_list_single by assumption.
    rewrite (app_assoc pad).
    assert (Hstrip : strip (pad ++ y) = y) by now rewrite strip_padding.
    rewrite IH; try assumption.
    + now rewrite Hstrip.
    + intros Hin. apply in_app_or in Hin as [Hin|Hin]; [|contradiction].
      rewrite Forall_forall in Hpad.
      exact (isspace_not_comma _ (Hpad _ Hin) eq_refl).
    + now rewrite Hstrip.
Qed.

Lemma comma_list_joined (pad : str) (xs : list str) :
  Forall (fun c => isspace c = true) pad ->
  Forall clean_item xs ->
  comma_list (join (COMMA :: pad) xs) = xs.
Proof.
  intros Hpad Hxs. destruct xs as [|x xs]; [reflexivity|].
  inversion Hxs as [|? ? (Hx & Hsx & Hcx) Hrest]; subst.
  rewrite JsonFacts.join_cons.
  rewrite (comma_list_joined_from pad xs Hpad x); try assumption.
  - now rewrite Hsx.
  - now rewrite Hsx.
Qed.

(** Round trip: clean items joined by a comma, with or without
    whitespace after it, parse back to the same items; joining is
    therefore one-to-one on lists of clean items. *)
Theorem comma_list_join (pad : str) (xs : list str) :
  Forall (fun c => isspace c = true) pad ->
  Forall clean_item xs ->
  comma_list (join (COMMA :: pad) xs) = xs
  /\ forall ys, Forall clean_item ys ->
                join (COMMA :: pad) xs = join (COMMA :: pad) ys -> xs = ys.
Proof.
  intros Hpad Hxs. split; [now apply comma_list_joined|].
  intros ys Hys E.
  rewrite <- (comma_list_joined pad xs Hpad Hxs).
  rewrite <- (comma_list_joined pad ys Hpad Hys).
  now rewrite E.
Qed.

(** The rooms as the first planning note lists them (joined by comma and
    space) parse back to the rooms that were parsed from the argument. *)
Theorem comma_list_of_displayed_rooms (text : str) :
  comma_list (join (lit ", ") (comma_list text)) = comma_list text
  /\ comma_list (join (lit ",") (comma_list text)) = comma_list text.
Proof.
  split.
  - apply (comma_list_joined [32%N]); [repeat constructor|].
    apply comma_list_clean.
  - apply (comma_list_joined []); [constructor|].
    apply comma_list_clean.
Qed.

Lemma comma_list_nil_iff_blank (text : str) :
  comma_list text = [] <-> Forall blank_char text.
Proof.
  unfold comma_list, blank_char. rewrite flat_map_nil_iff.
  rewrite <- (split_char_Forall COMMA (fun c => isspace c = true) text).
  split; intros H; (eapply Forall_impl; [|exact H]); intros seg Hseg.
  - apply strip_blank. cbv beta in Hseg.
    destruct (strip seg); [reflexivity|discriminate Hseg].
  - apply strip_blank in Hseg. now rewrite Hseg.
Qed.

Lemma blank_char_dec (c : char) : blank_char c \/ ~ blank_char c.
Proof.
  unfold blank_char. destruct (N.eq_dec c COMMA) as [->|Hne]; [left; now left|].
  destruct (isspace c); [left; now right|].
  right. intros [H|H]; [congruence|discriminate].
Qed.

(** No item is parsed exactly when the argument holds nothing but commas
    and whitespace; some item is parsed exactly when it holds a character
    that is neither. *)
Theorem comma_list_empty_iff_blank (text : str) :
  (comma_list text = [] <-> Forall blank_char text)
  /\ (comma_list text <> [] <-> Exists (fun c => ~ blank_char c) text).
Proof.
  split; [apply comma_list_nil_iff_blank|].
  rewrite (@Exists_Forall_neg _ blank_char text blank_char_dec).
  now rewrite comma_list_nil_iff_blank.
Qed.

End CommaList.

Lemma comma_list_join_witness :
  Forall (fun c => isspace c = true) [32%N]
  /\ Forall clean_item [lit "open kitchen"; lit "2 bathrooms"]
  /\ comma_list (lit "open kitchen, 2 bathrooms")
     = [lit "open kitchen"; lit "2 bathrooms"].
Proof.
  assert (Hpad : Forall (fun c => isspace c = true) [32%N])
    by (repeat constructor).
  assert (Hxs : Forall clean_item [lit "open kitchen"; lit "2 bathrooms"]).
  { repeat constructor; try discriminate;
      intros Hin; vm_compute in Hin; intuition discriminate. }
  split; [exact Hpad|]. split; [exact Hxs|].
  exact (proj1 (comma_list_join [32%N] _ Hpad Hxs)).
Defined.

Section ConfidenceFromArgs.

Variable lower : str -> str.

(** From the command line: the confidence is medium exactly when
    [--images] holds nothing but commas and whitespace, and high exactly
    when it holds some other character. *)
Theorem confidence_from_images_argument (args : Args) :
  exists proposal,
    propose lower (inputs_of_args args) = Ok proposal
    /\ (style_confidence proposal = lit "medium"
        <-> Forall blank_char (arg_images args))
    /\ (style_confidence proposal = lit "high"
        <-> Exists (fun c => ~ blank_char c) (arg_images args)).
Proof.
  destruct (propose_closed lower (inputs_of_args args)) as
    (style & e & i & f & _ & _ & _ & _ & _ & _ & Hp).
  eexists. split; [exact Hp|]. cbn [style_confidence inputs_of_args image_descriptions].
  rewrite (@Exists_Forall_neg _ blank_char (arg_images args) blank_char_dec).
  rewrite <- comma_list_nil_iff_blank.
  destruct (comma_list (arg_images args)); split; split; intros H;
    try reflexivity; try discriminate; try congruence.
Qed.

End ConfidenceFromArgs.

(* ================================================================= *)
(** ** More on style inference *)

Section InferStyleMore.

Variable lower : str -> str.

Lemma keyword_hits_pos_inv (text : str) (kws : list str) :
  0 < keyword_hits text kws -> exists k, In k kws /\ occurs_in k text.
Proof.
  induction kws as [|k kws IH]; intros H.
  - rewrite keyword_hits_nil in H. lia.
  - rewrite keyword_hits_cons in H.
    destruct (contains k text) eqn:E.
    + exists k. split; [now left|now apply contains_occurs].
    + destruct (IH ltac:(lia)) as (k' & Hin & Hocc).
      exists k'. split; [now right|exact Hocc].
Qed.

Lemma first_greatest_max (text best : str) (kws : list str) :
  first_greatest text best kws ->
  In (best, kws) STYLE_KEYWORDS
  /\ forall s k, In (s, k) STYLE_KEYWORDS ->
                 keyword_hits text k <= keyword_hits text kws.
Proof.
  intros (tb & ta & Et & Hb & Ha). split.
  - rewrite Et. apply in_or_app. right. now left.
  - intros s k Hin. rewrite Et in Hin.
    apply in_app_or in Hin as [Hin|[Hin|Hin]].
    + specialize (Hb _ _ Hin). lia.
    + inversion Hin; subst. lia.
    + exact (Ha _ _ Hin).
Qed.

(** The inferred style is backed by the text: a style other than
    contemporary is only returned when one of its own keywords occurs,
    and as soon as any keyword of any style occurs, one of the returned
    style's keywords does. *)
Theorem infer_style_has_own_keyword (brief : str) (images : list str) :
  let text := combined_text lower brief images in
  exists style kws,
    infer_style lower brief images = Ok style
    /\ In (style, kws) STYLE_KEYWORDS
    /\ (style <> lit "contemporary" ->
        exists k, In k kws /\ occurs_in k text)
    /\ ((exists s ks k,
            In (s, ks) STYLE_KEYWORDS /\ In k ks /\ occurs_in k text) ->
        exists k, In k kws /\ occurs_in k text).
Proof.
  intros text.
  destruct (infer_style_cases lower brief images) as
    (best & kws & Hfirst & Hinfer).
  fold text in Hfirst, Hinfer.
  destruct (first_greatest_max _ _ _ Hfirst) as (Hbest & Hmax).
  pose proof (keyword_hits_nonneg text kws) as Hnn.
  destruct (Z.eqb_spec (keyword_hits text kws) 0) as [Hz|Hnz].
  - exists (lit "contemporary"),
           [lit "contemporary"; lit "open concept"; lit "bright"; lit "bold"].
    split; [exact Hinfer|]. split; [right; right; now left|].
    split; [congruence|].
    intros (s & ks & k & Hs & Hk & Hocc).
    pose proof (keyword_hits_pos text ks k Hk Hocc).
    specialize (Hmax _ _ Hs). lia.
  - exists best, kws. split; [exact Hinfer|]. split; [exact Hbest|].
    assert (Hown : exists k, In k kws /\ occurs_in k text)
      by (apply keyword_hits_pos_inv; lia).
    split; intros _; exact Hown.
Qed.

Lemma join_middle (sep : str) (pre : list str) (a : str) (post : list str) :
  join sep (pre ++ a :: post)
  = join sep pre ++ (match pre with [] => [] | _ :: _ => sep end)
      ++ a ++ flat_map (fun y => sep ++ y) post.
Proof.
  destruct pre as [|p pre].
  - cbn [app join]. apply JsonFacts.join_cons.
  - cbn [app]. rewrite !JsonFacts.join_cons, flat_map_app. cbn [flat_map].
    now rewrite <- !app_assoc.
Qed.

(** The boundary between two image descriptors counts as one space, and
    so does the boundary between the brief and the descriptors: merging
    two neighbours with a space in between changes neither the scores nor
    the style. *)
Theorem infer_style_boundary_is_space
        (brief : str) (pre : list str) (x y : str) (post : list str) :
  style_scores lower brief (pre ++ (x ++ lit " " ++ y) :: post)
  = style_scores lower brief (pre ++ x :: y :: post)
  /\ infer_style lower brief (pre ++ (x ++ lit " " ++ y) :: post)
     = infer_style lower brief (pre ++ x :: y :: post)
  /\ infer_style lower (brief ++ lit " " ++ x) (y :: post)
     = infer_style lower brief (x :: y :: post).
Proof.
  assert (E1 : combined_text lower brief (pre ++ (x ++ lit " " ++ y) :: post)
               = combined_text lower brief (pre ++ x :: y :: post)).
  { unfold combined_text. rewrite !join_middle. cbn [flat_map].
    now rewrite <- !app_assoc. }
  assert (E2 : combined_text lower (brief ++ lit " " ++ x) (y :: post)
               = combined_text lower brief (x :: y :: post)).
  { unfold combined_text. rewrite (JsonFacts.join_cons _ x (y :: post)).
    rewrite (JsonFacts.join_cons _ y post). cbn [flat_map].
    now rewrite <- !app_assoc. }
  unfold infer_style, style_scores. rewrite E1, E2. auto.
Qed.

(** The finishes and features of a proposal are those the package table
    holds under the selected style, which is the inferred style; the
    notes are those of the plot and rooms given. *)
Theorem propose_package_matches_style (inputs : UserInputs) :
  exists proposal,
    propose lower inputs = Ok proposal
    /\ infer_style lower (brief inputs) (image_descriptions inputs)
       = Ok (selected_style proposal)
    /\ In (selected_style proposal,
           [ (lit "exterior", exterior_finishes proposal);
             (lit "interior", interior_finishes proposal);
             (lit "features", suggested_features proposal) ]) STYLE_PACKAGES
    /\ (forall package,
           In (selected_style proposal, package) STYLE_PACKAGES ->
           package = [ (lit "exterior", exterior_finishes proposal);
                       (lit "interior", interior_finishes proposal);
                       (lit "features", suggested_features proposal) ])
    /\ site_strategy_notes proposal = site_strategy (plot inputs)
    /\ room_planning proposal = room_planning_notes (required_rooms inputs).
Proof.
  destruct (propose_closed lower inputs) as
    (style & e & i & f & Hin & Hinfer & Hpkg & _ & _ & _ & Hp).
  eexists. split; [exact Hp|].
  cbn [selected_style exterior_finishes interior_finishes suggested_features
       site_strategy_notes room_planning].
  split; [exact Hinfer|].
  assert (Hmem : In (style, [ (lit "exterior", e); (lit "interior", i);
                              (lit "features", f) ]) STYLE_PACKAGES)
    by (apply dict_getitem_In; exact Hpkg).
  split; [exact Hmem|]. split; [|split; reflexivity].
  intros package Hpk.
  assert (ND : NoDup (dict_keys STYLE_PACKAGES))
    by (rewrite STYLE_PACKAGES_order; exact STYLE_ORDER_distinct).
  apply (dict_get_In _ _ _ ND) in Hpk. apply (dict_get_In _ _ _ ND) in Hmem.
  congruence.
Qed.

End InferStyleMore.

(* ================================================================= *)
(** ** More on the site strategy notes *)

Section SiteStrategyMore.

Lemma float_mul_comm (x y : float) : float_mul x y = float_mul y x.
Proof.
  unfold float_mul, SFmul.
  destruct x as [sx|sx| |sx mx ex], y as [sy|sy| |sy my ey];
    try reflexivity; try (now rewrite xorb_comm).
  now rewrite xorb_comm, Pos.mul_comm, Z.add_comm.
Qed.

(** Width and depth are interchangeable: swapping them leaves the four
    notes as they are. *)
Theorem site_strategy_swap_dimensions (w d : float) (sl cl ori : str) :
  site_strategy {| width_m := w; depth_m := d; slope := sl;
                   climate := cl; orientation := ori |}
  = site_strategy {| width_m := d; depth_m := w; slope := sl;
                     climate := cl; orientation := ori |}.
Proof.
  unfold site_strategy. cbn [width_m depth_m slope climate orientation].
  now rewrite (float_mul_comm w d).
Qed.

(** Two plots get the same notes exactly when they agree on orientation,
    slope and climate and their areas are displayed alike: the dimensions
    enter only through the displayed product. *)
Theorem site_strategy_same_notes (p q : PlotDetails) :
  site_strategy p = site_strategy q
  <-> format_f0 (float_mul (width_m p) (depth_m p))
      = format_f0 (float_mul (width_m q) (depth_m q))
      /\ orientation p = orientation q
      /\ slope p = slope q
      /\ climate p = climate q.
Proof.
  unfold site_strategy. split.
  - intros H. injection H as H1 H2 H3 H4.
    apply app_inv_tail in H1, H2, H3, H4. auto.
  - intros (-> & -> & -> & ->). reflexivity.
Qed.

End SiteStrategyMore.

(* ================================================================= *)
(** ** The sign of the displayed area *)

Section AreaSign.

Lemma shr_1_nonneg (mrs : shr_record) :
  0 <= shr_m mrs -> 0 <= shr_m (shr_1 mrs).
Proof.
  destruct mrs as [m r s]. cbn [shr_m].
  destruct m as [|p|p]; intros H; [reflexivity| |lia].
  destruct p; cbn; lia.
Qed.

Lemma iter_shr_1_nonneg (p : positive) :
  forall mrs, 0 <= shr_m mrs -> 0 <= shr_m (iter_pos shr_1 p mrs).
Proof.
  induction p as [p IH|p IH|]; intros mrs H; cbn [iter_pos].
  - apply IH, IH, shr_1_nonneg, H.
  - apply IH, IH, H.
  - apply shr_1_nonneg, H.
Qed.

Lemma shr_fexp_nonneg (m e : Z) (l : location) :
  0 <= m -> 0 <= shr_m (fst (shr_fexp 53 1024 m e l)).
Proof.
  intros H. unfold shr_fexp, shr.
  assert (H0 : 0 <= shr_m (shr_record_of_loc m l)).
  { destruct l as [|[ | | ]]; exact H. }
  destruct (fexp 53 1024 (Zdigits2 m + e) - e); cbn [fst]; try exact H0.
  now apply iter_shr_1_nonneg.
Qed.

Lemma round_nearest_even_nonneg (m : Z) (l : location) :
  0 <= m -> 0 <= round_nearest_even m l.
Proof.
  intros H. unfold round_nearest_even.
  destruct l as [|[ | | ]]; try lia. destruct (Z.even m); lia.
Qed.

(** Rounding a non-negative mantissa gives a zero, a finite number or an
    infinity, of the sign asked for. *)
Lemma binary_round_aux_sign (sx : bool) (mx ex : Z) :
  0 <= mx ->
  match binary_round_aux 53 1024 sx mx ex loc_Exact with
  | S754_zero s | S754_infinity s | S754_finite s _ _ => s = sx
  | S754_nan => False
  end.
Proof.
  intros H. unfold binary_round_aux.
  pose proof (shr_fexp_nonneg mx ex loc_Exact H) as H1.
  destruct (shr_fexp 53 1024 mx ex loc_Exact) as [mrs' e']. cbn [fst] in H1.
  pose proof (shr_fexp_nonneg _ e' loc_Exact
                (round_nearest_even_nonneg _ (loc_of_shr_record mrs') H1)) as H2.
  destruct (shr_fexp 53 1024 _ e' loc_Exact) as [mrs'' e'']. cbn [fst] in H2.
  destruct (shr_m mrs'') as [|m|m]; [reflexivity| |lia].
  destruct (e'' <=? 1024 - 53); reflexivity.
Qed.

Lemma digits_head (n : N) :
  exists c t, digits n = c :: t /\ digit_value c <> None.
Proof.
  pose proof (decimal_value_digits n) as H. unfold decimal_value in H.
  destruct (digits n) as [|c t]; [discriminate|].
  exists c, t. split; [reflexivity|].
  cbn [decimal_from] in H. destruct (digit_value c); [discriminate|discriminate].
Qed.

Lemma digits_not_minus (n : N) : startswith (lit "-") (digits n) = false.
Proof.
  destruct (digits_head n) as (c & t & -> & Hc).
  change (startswith (lit "-") (c :: t)) with (N.eqb 45 c && true).
  destruct (N.eqb_spec 45 c) as [<-|_]; [|reflexivity].
  exfalso. apply Hc. reflexivity.
Qed.

(** For finite dimensions the area is shown with a minus sign exactly
    when width and depth differ in sign; what follows the sign is [inf]
    (the product overflowed) or decimal digits, and it is [0] when a
    dimension is zero. *)
Theorem area_sign_follows_dimensions (plot : PlotDetails) (sw sd : bool) :
  finite_sign (width_m plot) = Some sw ->
  finite_sign (depth_m plot) = Some sd ->
  exists body,
    nth 0 (site_strategy plot) []
    = lit "Plot area is approximately "
        ++ (if xorb sw sd then lit "-" else []) ++ body ++ lit " m"
        ++ [178%N] ++ lit "; reserve 35-45% for landscaped open space."
    /\ (body = lit "inf" \/ exists n, body = digits n)
    /\ startswith (lit "-") body = false
    /\ ((exists s, width_m plot = S754_zero s \/ depth_m plot = S754_zero s) ->
        body = lit "0").
Proof.
  intros Hw Hd. unfold site_strategy. cbn [nth].
  destruct plot as [w d sl cl ori]. cbn [width_m depth_m] in *.
  assert (Hshape : exists body,
             format_f0 (float_mul w d)
             = (if xorb sw sd then lit "-" else []) ++ body
             /\ (body = lit "inf" \/ exists n, body = digits n)
             /\ startswith (lit "-") body = false
             /\ ((exists s, w = S754_zero s \/ d = S754_zero s) ->
                 body = lit "0")).
  { destruct w as [s1|s1| |s1 m1 e1]; try discriminate Hw;
      destruct d as [s2|s2| |s2 m2 e2]; try discriminate Hd;
      injection Hw as <-; injection Hd as <-.
    - exists (lit "0"). split; [reflexivity|]. split; [right; now exists 0%N|].
      split; [reflexivity|]. intros _. reflexivity.
    - exists (lit "0"). split; [reflexivity|]. split; [right; now exists 0%N|].
      split; [reflexivity|]. intros _. reflexivity.
    - exists (lit "0"). split; [reflexivity|]. split; [right; now exists 0%N|].
      split; [reflexivity|]. intros _. reflexivity.
    - unfold float_mul, SFmul.
      pose proof (binary_round_aux_sign (xorb s1 s2) (Z.pos (m1 * m2)) (e1 + e2)
                    ltac:(lia)) as Hs.
      destruct (binary_round_aux 53 1024 _ _ _ loc_Exact) as [s|s| |s m e];
        try contradiction; subst s; cbn [format_f0].
      + exists (lit "0"). split; [reflexivity|]. split; [right; now exists 0%N|].
        split; [reflexivity|]. intros (s & [H|H]); discriminate H.
      + exists (lit "inf"). split; [reflexivity|]. split; [now left|].
        split; [reflexivity|]. intros (s & [H|H]); discriminate H.
      + exists (digits (Z.to_N (round_half_even m e))).
        split; [reflexivity|]. split; [right; now eexists|].
        split; [apply digits_not_minus|].
        intros (s & [H|H]); discriminate H. }
  destruct Hshape as (body & E & Hbody & Hminus & Hzero).
  exists body. rewrite E. rewrite <- !app_assoc. auto.
Qed.

End AreaSign.

Lemma area_sign_witness :
  finite_sign (width_m negative_width_plot) = Some true
  /\ finite_sign (depth_m negative_width_plot) = Some false
  /\ exists body,
       nth 0 (site_strategy negative_width_plot) []
       = lit "Plot area is approximately " ++ lit "-" ++ body ++ lit " m"
           ++ [178%N] ++ lit "; reserve 35-45% for landscaped open space."
       /\ startswith (lit "-") body = false.
Proof.
  split; [reflexivity|]. split; [reflexivity|].
  destruct (area_sign_follows_dimensions negative_width_plot true false
              eq_refl eq_refl) as (body & E & _ & Hm & _).
  exists body. split; [exact E|exact Hm].
Defined.

Example negative_width_area :
  nth 0 (site_strategy negative_width_plot) []
  = lit "Plot area is approximately -450 m" ++ [178%N]
      ++ lit "; reserve 35-45% for landscaped open space.".
Proof. vm_compute. reflexivity. Qed.

(* ================================================================= *)
(** ** The shape of the structured output *)

Section OutputShape.

Import Json JsonSpec JsonFacts.

Lemma hex_digit_printable (d : N) : (d < 16)%N -> printable (hex_digit d).
Proof.
  intros H. unfold printable, hex_digit.
  destruct (N.ltb_spec d 10); lia.
Qed.

Lemma u_escape_printable (n : N) : Forall printable (u_escape n).
Proof.
  unfold u_escape, hex4.
  repeat (constructor;
          [first [apply hex_digit_printable; apply N.mod_lt; discriminate
                 |unfold printable, BACKSLASH; lia]|]).
  constructor.
Qed.

Lemma escape_char_printable (c : char) : Forall printable (escape_char c).
Proof.
  unfold escape_char.
  repeat match goal with
         | |- context [if N.eqb ?a ?b then _ else _] => destruct (N.eqb a b)
         end;
    try (repeat constructor; unfold printable, BACKSLASH, QUOTE; lia).
  destruct (N.leb_spec 32 c); cbn [andb].
  - destruct (N.leb_spec c 126).
    + repeat constructor; assumption.
    + destruct (c <? 65536)%N;
        [apply u_escape_printable
        |apply Forall_app; split; apply u_escape_printable].
  - destruct (c <? 65536)%N;
      [apply u_escape_printable
      |apply Forall_app; split; apply u_escape_printable].
Qed.

Lemma encode_string_printable (s : str) : Forall printable (encode_string s).
Proof.
  unfold encode_string. constructor; [unfold printable, QUOTE; lia|].
  apply Forall_app. split.
  - apply Forall_flat_map, Forall_forall. intros c _. apply escape_char_printable.
  - repeat constructor; unfold QUOTE; lia.
Qed.

Lemma output_charb_ok (s : str) :
  forallb output_charb s = true -> Forall output_char s.
Proof.
  intros H. apply Forall_forall. intros c Hc.
  rewrite forallb_forall in H. specialize (H c Hc).
  unfold output_charb in H. apply orb_true_iff in H as [H|H].
  - left. now apply N.eqb_eq.
  - right. apply andb_true_iff in H as [H1 H2].
    split; now apply N.leb_le.
Qed.

Lemma encode_string_output (s : str) : Forall output_char (encode_string s).
Proof.
  eapply Forall_impl; [|apply encode_string_printable]. intros c H. now right.
Qed.

Lemma line_feeds_app (a b : str) :
  line_feeds (a ++ b) = (line_feeds a + line_feeds b)%nat.
Proof. apply count_occ_app. Qed.

Lemma line_feeds_printable (s : str) : Forall printable s -> line_feeds s = 0%nat.
Proof.
  intros H. apply count_occ_not_In. intros Hin.
  rewrite Forall_forall in H. specialize (H _ Hin).
  unfold printable, NEWLINE in H. lia.
Qed.

Lemma line_feeds_encode_string (s : str) : line_feeds (encode_string s) = 0%nat.
Proof. apply line_feeds_printable, encode_string_printable. Qed.

Variable lower : str -> str.
Variable pretty_print : DesignProposal -> str.

(** Under [--json] the output is always plain ASCII, made of printable
    characters and line feeds, and always has thirty lines: whatever the
    arguments hold (quotes, line feeds, characters outside ASCII) is
    escaped and never adds or joins lines. *)
Theorem structured_output_ascii_lines (args : Args) :
  arg_json args = true ->
  exists out,
    main lower pretty_print args = Ok out
    /\ Forall output_char out
    /\ line_feeds out = 30%nat.
Proof.
  intros Hjson.
  destruct (propose_closed lower (inputs_of_args args)) as
    (style & e & i & f & _ & _ & _ & He & Hi & Hf & Hp).
  destruct e as [|e1 [|e2 [|e3 [|]]]]; try discriminate He.
  destruct i as [|i1 [|i2 [|i3 [|]]]]; try discriminate Hi.
  destruct f as [|f1 [|f2 [|f3 [|]]]]; try discriminate Hf.
  eexists. split.
  { unfold main. rewrite Hp. cbn [bind]. rewrite Hjson.
    rewrite dumps_layout by discriminate. reflexivity. }
  unfold proposal_layout, string_field, list_field, site_strategy,
    room_planning_notes, NL.
  cbn [selected_style style_confidence exterior_finishes interior_finishes
       suggested_features site_strategy_notes room_planning List.map join].
  split.
  - repeat (apply Forall_app; split);
      first [apply encode_string_output
            |apply output_charb_ok; reflexivity].
  - rewrite !line_feeds_app, !line_feeds_encode_string. reflexivity.
Qed.

End OutputShape.

Lemma structured_output_witness :
  arg_json awkward_rooms_args = true
  /\ exists out,
       main ascii_lower (fun _ => []) awkward_rooms_args = Ok out
       /\ Forall output_char out
       /\ line_feeds out = 30%nat.
Proof.
  split; [reflexivity|].
  exact (structured_output_ascii_lines ascii_lower (fun _ => [])
           awkward_rooms_args eq_refl).
Defined.

(* ================================================================= *)
(** ** Keywords of a single style, rooms from the command line *)

Section SingleStyle.

Variable lower : str -> str.

(** When keywords of one style only occur in the text, that style is
    returned, wherever it stands in the table. *)
Theorem infer_style_single_style
        (brief : str) (images : list str) (style : str) (kws : list str) :
  let text := combined_text lower brief images in
  In (style, kws) STYLE_KEYWORDS ->
  (exists k, In k kws /\ occurs_in k text) ->
  (forall s ks k,
      In (s, ks) STYLE_KEYWORDS -> s <> style -> In k ks ->
      ~ occurs_in k text) ->
  infer_style lower brief images = Ok style.
Proof.
  intros text Hin (k & Hk & Hocc) Hothers.
  pose proof (keyword_hits_pos text kws k Hk Hocc) as Hpos.
  destruct (infer_style_cases lower brief images) as
    (best & kws' & Hfirst & Hinfer).
  fold text in Hfirst, Hinfer.
  destruct (first_greatest_max _ _ _ Hfirst) as (Hbest & Hmax).
  specialize (Hmax _ _ Hin).
  destruct (str_eq_dec best style) as [->|Hne].
  - rewrite Hinfer.
    destruct (Z.eqb_spec (keyword_hits text kws') 0); [lia|reflexivity].
  - exfalso.
    assert (Hz : keyword_hits text kws' = 0).
    { apply keyword_hits_zero. intros k' Hk'.
      exact (Hothers best kws' k' Hbest Hne Hk'). }
    lia.
Qed.

End SingleStyle.

Lemma infer_style_single_style_witness :
  infer_style ascii_lower (lit "A Rustic, COZY barn") [lit "country lane"]
  = Ok (lit "farmhouse").
Proof.
  apply (infer_style_single_style ascii_lower _ _ (lit "farmhouse")
           [lit "farmhouse"; lit "rustic"; lit "barn"; lit "country"; lit "cozy"]).
  - right. now left.
  - exists (lit "rustic"). split; [right; now left|].
    apply contains_occurs. vm_compute. reflexivity.
  - intros s ks k Hs Hne Hk.
    apply contains_false_not_occurs.
    repeat (destruct Hs as [Hs|Hs];
            [injection Hs as <- <-;
             try congruence;
             repeat (destruct Hk as [<-|Hk]; [vm_compute; reflexivity|]);
             contradiction|]).
    contradiction.
Defined.

Section RoomsFromCommandLine.

(** Room lists as the command line delivers them are told apart by the
    planning notes: two lists of clean items with the same notes are the
    same list. *)
Theorem room_notes_determine_clean_rooms (xs ys : list str) :
  Forall clean_item xs -> Forall clean_item ys ->
  room_planning_notes xs = room_planning_notes ys ->
  xs = ys.
Proof.
  intros Hxs Hys H. unfold room_planning_notes in H.
  injection H as H. apply app_inv_tail in H.
  rewrite <- (comma_list_joined [32%N] xs), <- (comma_list_joined [32%N] ys);
    try assumption; try (repeat constructor).
  change (COMMA :: [32%N]) with (lit ", "). now rewrite H.
Qed.

End RoomsFromCommandLine.

Lemma room_notes_witness :
  Forall clean_item [lit "den"] /\ Forall clean_item [lit "den"]
  /\ [lit "den"] = [lit "den"].
Proof.
  assert (H : Forall clean_item [lit "den"]).
  { repeat constructor; try discriminate.
    intros Hin; vm_compute in Hin; intuition discriminate. }
  split; [exact H|]. split; [exact H|].
  exact (room_notes_determine_clean_rooms _ _ H H eq_refl).
Defined.

(** Items that hold a comma are not told apart: one room named [a, b]
    and the two rooms [a] and [b] give the same notes. *)
Example room_notes_merge_comma_items :
  room_planning_notes [lit "a, b"] = room_planning_notes [lit "a"; lit "b"].
Proof. reflexivity. Qed.
